(** * Grid-background removal (mobile/remove_background_simple.py)

    A shallow embedding of [remove_grid_background], the PIL/NumPy routine
    that erases a light ruled grid behind artwork, and the properties of its
    four passes (colour-distance mask, line suppressor, foreground protector,
    smoothing filter).

    The routine works on the decoded RGBA array [np.array(img)]: an
    [height x width x 4] array of [uint8].  Pillow's decoder is library code:
    what [Image.open] and [convert] give for the input file is taken as it
    is, an array or a failure.  Saving the PNG is a write to a map from paths
    to images; the [print] calls are outside the embedding. *)

From stdpp Require Import prelude gmap strings.
From Stdlib Require Import ZArith Lia Floats Uint63.

(** ** Data model *)

(** One cell [data[y, x]] of the array: four [uint8] channels. *)
Record pixel : Type := Pixel { red : Z; green : Z; blue : Z; alpha : Z }.

(** The array, as the list of its rows. *)
Abbreviation image := (list (list pixel)).

(** [[0, 0, 0, 0]], the value every removing assignment stores. *)
Definition transparent : pixel := Pixel 0 0 0 0.

Definition uint8 (c : Z) : Prop := (0 <= c <= 255)%Z.

Definition valid_pixel (p : pixel) : Prop :=
  uint8 (red p) /\ uint8 (green p) /\ uint8 (blue p) /\ uint8 (alpha p).

(** A NumPy array of shape [(h, w, 4)] and dtype [uint8]. *)
Definition wf_image (h w : nat) (im : image) : Prop :=
  length im = h /\ Forall (fun row => length row = w /\ Forall valid_pixel row) im.

(** [data.shape[:2]]. *)
Definition height (im : image) : nat := length im.

Definition width (im : image) : nat :=
  match im with [] => 0 | row :: _ => length row end.

(** [data[y, x]] with NumPy's bounds check: [None] stands for [IndexError]. *)
Definition lookup_px (im : image) (y x : nat) : option pixel :=
  im !! y ≫= (fun row => row !! x).

(** [data[y, x]] inside the loops, where [y] ranges over [range(height)] and
    [x] over [range(width)]; the default is never reached on an array
    (lemma [getpx_lookup]). *)
Definition getpx (im : image) (y x : nat) : pixel :=
  default transparent (lookup_px im y x).

(** [result_data[y, x] = p]. *)
Definition setpx (im : image) (y x : nat) (p : pixel) : image :=
  alter (fun row => <[x := p]> row) y im.

(** [for i in range(n): s = body(i, s)]. *)
Definition for_range {S : Type} (n : nat) (body : nat -> S -> S) (s : S) : S :=
  foldl (fun acc i => body i acc) s (seq 0 n).

(** ** Scalar tests

    The source compares floating-point values; each comparison below is the
    exact integer form of the one in the source.

    - [np.mean(pixel[:3]) > t] : the mean is [(r+g+b)/3.0] with [r+g+b <= 765]
      exact, and division by 3 is monotone and exact on multiples of 3, so the
      test is [r+g+b > 3*t].
    - [count > width * 0.6] : the product is the double nearest to [0.6*width],
      which is the integer [3*width/5] when 5 divides [width] and is otherwise
      at least 0.2 away from every integer, so the test is
      [5*count > 3*width]. *)

Definition channel_sum (p : pixel) : Z := (red p + green p + blue p)%Z.

Definition mean_gt (p : pixel) (t : Z) : bool := (3 * t <? channel_sum p)%Z.

Definition exceeds_fraction (count : Z) (n : nat) : bool :=
  (3 * Z.of_nat n <? 5 * count)%Z.

(** ** Pass 1: background estimate and colour-distance mask *)

(** [bg_color = np.mean(corner_colors, axis=0)], kept as the four corner sums
    (four times the mean), which are exact. *)
Record bg_color : Type := Bg { bg_r4 : Z; bg_g4 : Z; bg_b4 : Z }.

Definition corner_colors (data : image) (height width : nat)
  : option (pixel * pixel * pixel * pixel) :=
  tl ← lookup_px data 0 0;
  tr ← lookup_px data 0 (width - 1);
  bl ← lookup_px data (height - 1) 0;
  br ← lookup_px data (height - 1) (width - 1);
  Some (tl, tr, bl, br).

Definition mean_color (c : pixel * pixel * pixel * pixel) : bg_color :=
  let '(tl, tr, bl, br) := c in
  Bg (red tl + red tr + red bl + red br)
     (green tl + green tr + green bl + green br)
     (blue tl + blue tr + blue bl + blue br).

Definition tolerance : Z := 40.

(** Sixteen times [np.sum((pixel[:3] - bg_color[:3])**2)]: every term is a
    multiple of 1/16 below 2^20, so the double sum is exact. *)
Definition color_diff_sq16 (bg : bg_color) (p : pixel) : Z :=
  ((4 * red p - bg_r4 bg) ^ 2 + (4 * green p - bg_g4 bg) ^ 2
   + (4 * blue p - bg_b4 bg) ^ 2)%Z.

(** [color_diff < tol], with [color_diff = np.sqrt(s)]: the correctly rounded
    square root of an exact [s] is below [tol] exactly when [s < tol^2]. *)
Definition color_diff_lt (bg : bg_color) (p : pixel) (tol : Z) : bool :=
  (color_diff_sq16 bg p <? 16 * tol ^ 2)%Z.

(** The body of the loop of lines 51-66, with its [if]/[elif] shape. *)
Definition mask_step (data : image) (bg : bg_color) (y x : nat)
    (result_data : image) : image :=
  let pixel := getpx data y x in
  if color_diff_lt bg pixel tolerance then
    if mean_gt pixel 180 then setpx result_data y x transparent
    else result_data
  else if mean_gt pixel 240 then setpx result_data y x transparent
  else result_data.

Definition mask_pass (data : image) (bg : bg_color) (height width : nat)
    (result_data : image) : image :=
  for_range height (fun y =>
    for_range width (fun x => mask_step data bg y x)) result_data.

(** ** Pass 2: line suppressor *)

(** The test that feeds the running count (line 76, and line 94 with the two
    conjuncts in the other order). *)
Definition light_opaque (p : pixel) : bool :=
  mean_gt p 220 && (0 <? alpha p)%Z.

(** Lines 84-86: clear the light pixels of row [y]. *)
Definition clear_row (y width : nat) (result_data : image) : image :=
  for_range width (fun px r =>
    if mean_gt (getpx r y px) 200 then setpx r y px transparent else r)
    result_data.

(** Lines 75-87: the scan of row [y] over the remaining columns [xs], with the
    running [light_pixel_count]; the [break] ends the recursion. *)
Fixpoint row_scan (y width : nat) (xs : list nat) (light_pixel_count : Z)
    (result_data : image) : image :=
  match xs with
  | [] => result_data
  | x :: xs' =>
      let count := if light_opaque (getpx result_data y x)
                   then (light_pixel_count + 1)%Z else 0%Z in
      if exceeds_fraction count width then clear_row y width result_data
      else row_scan y width xs' count result_data
  end.

Definition row_pass (height width : nat) (result_data : image) : image :=
  for_range height (fun y => row_scan y width (seq 0 width) 0) result_data.

(** Lines 102-104. *)
Definition clear_col (x height : nat) (result_data : image) : image :=
  for_range height (fun py r =>
    if mean_gt (getpx r py x) 200 then setpx r py x transparent else r)
    result_data.

(** Lines 93-105. *)
Fixpoint col_scan (x height : nat) (ys : list nat) (light_pixel_count : Z)
    (result_data : image) : image :=
  match ys with
  | [] => result_data
  | y :: ys' =>
      let count := if light_opaque (getpx result_data y x)
                   then (light_pixel_count + 1)%Z else 0%Z in
      if exceeds_fraction count height then clear_col x height result_data
      else col_scan x height ys' count result_data
  end.

Definition col_pass (height width : nat) (result_data : image) : image :=
  for_range width (fun x => col_scan x height (seq 0 height) 0) result_data.

(** ** Pass 3: foreground protector *)

(** [r + 10] adds a Python [int] to a [np.uint8] scalar.  Before NumPy 2 the
    sum is an [int64]; since NumPy 2 (NEP 50) it stays [uint8] and wraps. *)
Inductive promotion : Type := Legacy | NEP50.

Definition scalar_add (m : promotion) (c k : Z) : Z :=
  match m with
  | Legacy => (c + k)%Z
  | NEP50 => ((c + k) mod 256)%Z
  end.

Definition blue_dominant (m : promotion) (p : pixel) : bool :=
  (scalar_add m (red p) 10 <? blue p)%Z && (scalar_add m (green p) 10 <? blue p)%Z.

Definition spread (p : pixel) : Z :=
  (Z.max (Z.max (red p) (green p)) (blue p)
   - Z.min (Z.min (red p) (green p)) (blue p))%Z.

(** The body of the loop of lines 109-125. *)
Definition protect_step (m : promotion) (data : image) (y x : nat)
    (result_data : image) : image :=
  let pixel := getpx result_data y x in
  if blue_dominant m pixel then
    if (alpha pixel =? 0)%Z then setpx result_data y x (getpx data y x)
    else result_data
  else if (15 <? spread pixel)%Z then
    if (alpha pixel =? 0)%Z then setpx result_data y x (getpx data y x)
    else result_data
  else result_data.

Definition protect_pass (m : promotion) (data : image) (height width : nat)
    (result_data : image) : image :=
  for_range height (fun y =>
    for_range width (fun x => protect_step m data y x)) result_data.

(** ** Pass 4: [result_img.filter(ImageFilter.SMOOTH_MORE)]

    Pillow's built-in filter, which is library code: a 5x5 kernel of scale 100
    and offset 0, run by [ImagingFilter] over every band of the image.  An
    image narrower or lower than the kernel is copied; otherwise the two
    outermost rows and columns are copied and every other cell is the
    weighted sum of its 5x5 neighbourhood, divided by the scale, plus one
    half, truncated and clipped to [uint8].  The division is exact here where
    Pillow sums the products in single precision; the two agree unless the
    weighted sum is 50 modulo 100.  On such a tie Pillow's sum can fall just
    short of the half and give one less than [filter_band] (for a weighted
    sum of 150: 2 here, 1 from Pillow). *)

Definition SMOOTH_MORE : list (list Z) :=
  [ [1; 1;  1; 1; 1];
    [1; 5;  5; 5; 1];
    [1; 5; 44; 5; 1];
    [1; 5;  5; 5; 1];
    [1; 1;  1; 1; 1] ]%Z.

Definition sum_Z (l : list Z) : Z := foldr Z.add 0%Z l.

Definition weighted_sum (band : pixel -> Z) (im : image) (y x : nat) : Z :=
  sum_Z (imap (fun dy krow =>
    sum_Z (imap (fun dx k => (k * band (getpx im (y + dy - 2) (x + dx - 2)))%Z)
             krow)) SMOOTH_MORE).

Definition clip8 (v : Z) : Z :=
  if (v <=? 0)%Z then 0%Z else if (255 <=? v)%Z then 255%Z else v.

Definition filter_band (band : pixel -> Z) (im : image) (y x : nat) : Z :=
  clip8 ((weighted_sum band im y x + 50) / 100)%Z.

Definition interior (h w y x : nat) : bool :=
  (2 <=? y) && (y + 2 <? h) && (2 <=? x) && (x + 2 <? w).

Definition smooth_more (im : image) : image :=
  let h := height im in
  let w := width im in
  if (w <? 5) || (h <? 5) then im
  else
    imap (fun y row =>
      imap (fun x p =>
        if interior h w y x then
          Pixel (filter_band red im y x) (filter_band green im y x)
                (filter_band blue im y x) (filter_band alpha im y x)
        else p) row) im.

(** ** The routine *)

(** How a call can end without a result.  [IndexError] is NumPy's, raised by a
    subscript out of range.  [InvalidImageFormat] is the failure of the
    decoder: the exception Pillow raises from [Image.open] or [convert] on a
    file it cannot read as an image, which the routine lets through and the
    specification calls InvalidImageFormat. *)
Inductive exn : Type := IndexError | InvalidImageFormat.

(** The buffer handed to the smoothing filter (lines 26-125). *)
Definition classify (m : promotion) (data : image)
    (corners : pixel * pixel * pixel * pixel) : image :=
  let result_data := data in
  let height := height data in
  let width := width data in
  let bg := mean_color corners in
  let result_data := mask_pass data bg height width result_data in
  let result_data := row_pass height width result_data in
  let result_data := col_pass height width result_data in
  protect_pass m data height width result_data.

Definition remove_grid_background (m : promotion) (data : image) : exn + image :=
  match corner_colors data (height data) (width data) with
  | None => inl IndexError
  | Some corners => inr (smooth_more (classify m data corners))
  end.



(** * The colour-box routine (scripts/make-transparent.py)

    [remove_background] works on the Pillow image itself, through
    [getpixel], [getdata] and [putdata]; the image is the list of its rows as
    before. *)

(** [(255, 255, 255, 0)], the value the routine stores. *)
Definition cleared_white : pixel := Pixel 255 255 255 0.

(** [img.getpixel((x, y))]; [None] stands for the [IndexError] of a subscript
    out of range. *)
Definition getpixel (img : image) (x y : nat) : option pixel := lookup_px img y x.

(** [img.getdata()]: the pixels, row after row. *)
Definition getdata (img : image) : list pixel := concat img.

(** [img.putdata(new_data)]: the sequence is written row after row; cells
    past its end keep their value. *)
Fixpoint putdata (img : image) (new_data : list pixel) : image :=
  match img with
  | [] => []
  | row :: rows =>
      (take (length row) new_data ++ drop (length new_data) row)
        :: putdata rows (drop (length row) new_data)
  end.

(** Lines 30-35: the four corner pixels. *)
Definition corner_pixels (img : image) (width height : nat) : option (list pixel) :=
  c1 ← getpixel img 0 0;
  c2 ← getpixel img (width - 1) 0;
  c3 ← getpixel img 0 (height - 1);
  c4 ← getpixel img (width - 1) (height - 1);
  Some [c1; c2; c3; c4].

(** [sum(c[i] for c in corners) // 4]. *)
Definition corner_average (band : pixel -> Z) (corners : list pixel) : Z :=
  (sum_Z (band <$> corners) / 4)%Z.

(** The test of lines 49-51. *)
Definition similar (bg_r bg_g bg_b fuzz : Z) (item : pixel) : bool :=
  (Z.abs (red item - bg_r) <? fuzz)%Z
  && (Z.abs (green item - bg_g) <? fuzz)%Z
  && (Z.abs (blue item - bg_b) <? fuzz)%Z.

(** The routine, with its parameter [fuzz] (30 when the caller gives none). *)
Definition remove_background (img : image) (fuzz : Z) : exn + image :=
  let data := getdata img in
  let width := width img in
  let height := height img in
  match corner_pixels img width height with
  | None => inl IndexError
  | Some corners =>
      let bg_r := corner_average red corners in
      let bg_g := corner_average green corners in
      let bg_b := corner_average blue corners in
      let new_data :=
        (fun item => if similar bg_r bg_g bg_b fuzz item then cleared_white
                     else item) <$> data in
      inr (putdata img new_data)
  end.

(** [f] applied to every pixel, each at its place. *)
Definition map_image (f : pixel -> pixel) (img : image) : image :=
  (fun row : list pixel => f <$> row) <$> img.

(** What the routine does to one pixel, given the corners. *)
Definition box_cell (corners : list pixel) (fuzz : Z) (item : pixel) : pixel :=
  if similar (corner_average red corners) (corner_average green corners)
       (corner_average blue corners) fuzz item
  then cleared_white else item.

(** * The last loop of the OpenCV variant (mobile/remove_grid_background.py)

    The variant builds its mask with OpenCV, which is outside the embedding;
    its last loop (lines 119-129) composes the output from the input array
    [original_array] and the mask [smooth_mask], both taken as they are. *)

(** A 2-D [uint8] array, as the list of its rows. *)
Abbreviation mask := (list (list Z)).

(** [smooth_mask[y, x]] inside the loops. *)
Definition getmask (smooth_mask : mask) (y x : nat) : Z :=
  default 0%Z (smooth_mask !! y ≫= (fun row => row !! x)).

(** A [uint8] as a [float64]. *)
Definition float_of_uint8 (c : Z) : float := PrimFloat.of_uint63 (Uint63.of_Z c).

(** Python's [int(v)] on a finite [float]: truncation towards 0. *)
Definition int_of_float (v : float) : Z :=
  match Prim2SF v with
  | S754_finite s m e =>
      let magnitude :=
        if (0 <=? e)%Z then (Z.pos m * 2 ^ e)%Z else (Z.pos m / 2 ^ (- e))%Z in
      if s then (- magnitude)%Z else magnitude
  | _ => 0%Z
  end.

(** [min(255, int((alpha_value / 255.0) * a))], in double precision as the
    source computes it. *)
Definition scale_alpha (alpha_value a : Z) : Z :=
  Z.min 255
    (int_of_float
       (PrimFloat.mul (PrimFloat.div (float_of_uint8 alpha_value) 255%float)
          (float_of_uint8 a))).

(** The body of the loop of lines 122-129; [final_result] starts out as
    [(0, 0, 0, 0)] everywhere. *)
Definition compose_step (original_array : image) (smooth_mask : mask)
    (y x : nat) (final_result : image) : image :=
  let alpha_value := getmask smooth_mask y x in
  if (10 <? alpha_value)%Z then
    let p := getpx original_array y x in
    let new_alpha := scale_alpha alpha_value (alpha p) in
    setpx final_result y x (Pixel (red p) (green p) (blue p) new_alpha)
  else final_result.

(** [Image.new("RGBA", size, (0, 0, 0, 0))] for the size of [im]. *)
Definition blank_like (im : image) : image :=
  (fun row : list pixel => (fun _ => transparent) <$> row) <$> im.

Definition compose_final (original_array : image) (smooth_mask : mask)
    (width height : nat) : image :=
  for_range height (fun y =>
    for_range width (fun x => compose_step original_array smooth_mask y x))
    (blank_like original_array).

(** The loop on one cell. *)
Definition compose_cell (original_array : image) (smooth_mask : mask)
    (y x : nat) (q : pixel) : pixel :=
  let alpha_value := getmask smooth_mask y x in
  if (10 <? alpha_value)%Z then
    let p := getpx original_array y x in
    Pixel (red p) (green p) (blue p) (scale_alpha alpha_value (alpha p))
  else q.

(** What the scaling does on every pair of [uint8] values, as a table. *)
Definition uint8_range : list Z := Z.of_nat <$> seq 0 256.

Definition scale_alpha_facts (m a : Z) : bool :=
  (0 <=? scale_alpha m a)%Z
  && (scale_alpha m a <=? a)%Z
  && (scale_alpha m a <=? m * a / 255)%Z
  && (m * a / 255 - 1 <=? scale_alpha m a)%Z
  && (if (m =? 255)%Z then (scale_alpha m a =? a)%Z else true).

(** * Notions used in the statements and proofs *)

(** ** The passes, cell by cell *)

(** The row lengths of an array; two arrays of one shape have the same
    height and, row by row, the same width. *)
Definition dims (im : image) : list nat := length <$> im.

(** A loop body that replaces the cell [(y, x)] by a function of its current
    value (and leaves every other cell alone). *)
Definition pointwise (step : nat -> nat -> image -> image)
    (f : nat -> nat -> pixel -> pixel) : Prop :=
  forall y x im, step y x im = setpx im y x (f y x (getpx im y x)).

(** The colour-distance mask on the cell whose input value is [d]. *)
Definition mask_cell (data : image) (bg : bg_color) (y x : nat) (p : pixel) : pixel :=
  let d := getpx data y x in
  if color_diff_lt bg d tolerance then
    if mean_gt d 180 then transparent else p
  else if mean_gt d 240 then transparent else p.

(** The clearing loops of the line suppressor on a cell. *)
Definition clear_light (p : pixel) : pixel :=
  if mean_gt p 200 then transparent else p.

Definition clear_step (y x : nat) (r : image) : image :=
  if mean_gt (getpx r y x) 200 then setpx r y x transparent else r.

(** Whether the scan of the pixels [ps], entered with the running count
    [count], reaches its [break]: the count goes up by one on a light opaque
    pixel, back to 0 on any other, and is tested after every pixel. *)
Fixpoint scan_hits (n : nat) (ps : list pixel) (count : Z) : bool :=
  match ps with
  | [] => false
  | p :: ps' =>
      let count' := if light_opaque p then (count + 1)%Z else 0%Z in
      exceeds_fraction count' n || scan_hits n ps' count'
  end.

(** The cells of row [y] and of column [x] that the scans visit. *)
Definition row_cells (im : image) (y w : nat) : list pixel :=
  getpx im y <$> seq 0 w.

Definition col_cells (im : image) (x h : nat) : list pixel :=
  (fun y => getpx im y x) <$> seq 0 h.

(** The protector on a cell whose current value is [p]. *)
Definition protect_cell (m : promotion) (data : image) (y x : nat) (p : pixel) : pixel :=
  if blue_dominant m p then
    if (alpha p =? 0)%Z then getpx data y x else p
  else if (15 <? spread p)%Z then
    if (alpha p =? 0)%Z then getpx data y x else p
  else p.

(** Cell by cell, [im] holds either what [data] holds or [[0, 0, 0, 0]]. *)
Definition kept_or_cleared (data im : image) : Prop :=
  forall y x,
    lookup_px im y x = lookup_px data y x
    \/ lookup_px im y x = (fun _ => transparent) <$> lookup_px data y x.

(** The buffer before the protector. *)
Definition suppressed (data : image) (bg : bg_color) : image :=
  col_pass (height data) (width data)
    (row_pass (height data) (width data)
       (mask_pass data bg (height data) (width data) data)).

Definition smoothed_cell (im : image) (y x : nat) : pixel :=
  Pixel (filter_band red im y x) (filter_band green im y x)
        (filter_band blue im y x) (filter_band alpha im y x).

Definition nonneg_alpha (im : image) : Prop :=
  forall y x, (0 <= alpha (getpx im y x))%Z.

(** Cells that are all [[0, 0, 0, 0]]. *)
Definition all_transparent (im : image) : Prop :=
  forall y x q, lookup_px im y x = Some q -> q = transparent.

(** Two pixels of one colour (alpha apart). *)
Definition same_rgb (p c : pixel) : Prop :=
  red p = red c /\ green p = green c /\ blue p = blue c.

(** ** Sample pixels and images *)

Definition black : pixel := Pixel 0 0 0 255.
Definition white : pixel := Pixel 255 255 255 255.
Definition light_gray : pixel := Pixel 230 230 230 255.
Definition gray : pixel := Pixel 200 200 200 255.
Definition blue_tinted : pixel := Pixel 230 230 255 255.
Definition dark_red : pixel := Pixel 100 0 0 255.

(** A dark red dot in the middle of a black 5x5 image. *)
Definition dark_dot : image :=
  [ [black; black; black;    black; black];
    [black; black; black;    black; black];
    [black; black; dark_red; black; black];
    [black; black; black;    black; black];
    [black; black; black;    black; black] ].

(** A blue-tinted pixel in the middle of a white 3x3 image. *)
Definition tinted_dot : image :=
  [ [white; white;       white];
    [white; blue_tinted; white];
    [white; white;       white] ].

(** A black pixel in the middle of a white 3x3 image. *)
Definition black_on_white : image :=
  [ [white; white; white];
    [white; black; white];
    [white; white; white] ].

(** A black pixel in a white image of 5 rows and 6 columns. *)
Definition black_on_white_wide : image :=
  [ [white; white; white; white; white; white];
    [white; white; white; white; white; white];
    [white; white; black; white; white; white];
    [white; white; white; white; white; white];
    [white; white; white; white; white; white] ].

(** A white pixel in the middle of a gray 3x3 image. *)
Definition white_on_gray : image :=
  [ [gray; gray;  gray];
    [gray; white; gray];
    [gray; gray;  gray] ].

(** A row of four light pixels and a black one. *)
Definition long_line : image :=
  [ [light_gray; light_gray; light_gray; light_gray; black] ].

(** A row that opens with a cleared cell, followed by three light pixels. *)
Definition broken_line : image :=
  [ [transparent; light_gray; light_gray; light_gray; black] ].

Ltac solve_wf :=
  split; [reflexivity|];
  repeat (apply Forall_cons; split; [split; [reflexivity|]|]);
  repeat first [apply Forall_nil | apply Forall_cons; split];
  try (unfold valid_pixel, uint8; simpl; lia).

(** ** The sentences of the specification that the code does not meet *)

(** The sentence of the specification: an image of one colour comes out with
    alpha 0 everywhere. *)
Definition spec_uniform_image : Prop :=
  forall (m : promotion) (data : image) (h w : nat) (c : pixel) (out : image),
    wf_image h w data -> 0 < h -> 0 < w ->
    (forall y x d, lookup_px data y x = Some d -> same_rgb d c) ->
    remove_grid_background m data = inr out ->
    forall y x q, lookup_px out y x = Some q -> alpha q = 0%Z.

(** The sentence of the specification: with four corners of one colour [c]
    that no pixel of another colour matches within the tolerance, every
    pixel of colour [c] comes out with alpha 0 and every other pixel with the
    alpha it had. *)
Definition spec_corner_invariance : Prop :=
  forall (m : promotion) (data : image) (h w : nat) (tl tr bl br c : pixel)
         (out : image),
    wf_image h w data -> 0 < h -> 0 < w ->
    corner_colors data (height data) (width data) = Some (tl, tr, bl, br) ->
    same_rgb tl c -> same_rgb tr c -> same_rgb bl c -> same_rgb br c ->
    (forall y x d, lookup_px data y x = Some d -> ~ same_rgb d c ->
       color_diff_lt (mean_color (tl, tr, bl, br)) d tolerance = false) ->
    remove_grid_background m data = inr out ->
    forall y x d q, lookup_px data y x = Some d -> lookup_px out y x = Some q ->
      (same_rgb d c -> alpha q = 0%Z) /\ (~ same_rgb d c -> alpha q = alpha d).

(** [k] consecutive pixels of [ps] that all pass [test]. *)
Definition run_of (test : pixel -> bool) (ps : list pixel) (k : nat) : Prop :=
  exists pre run suf,
    ps = pre ++ run ++ suf /\ length run = k /\ Forall (fun p => test p = true) run.

(** A run of light opaque pixels longer than 0.6 of [n]. *)
Definition line_found (n : nat) (ps : list pixel) : Prop :=
  exists k, exceeds_fraction (Z.of_nat k) n = true /\ run_of light_opaque ps k.

(** The light test in the words of the specification: a pixel that is already
    transparent or of mean brightness above 220. *)
Definition spec_light (p : pixel) : bool :=
  (alpha p =? 0)%Z || mean_gt p 220.

(** The sentence of the specification for the row scan: the count goes up on
    every pixel that passes that test, so a run of them longer than 0.6 of
    the width clears the row. *)
Definition spec_line_suppressor : Prop :=
  forall (h w : nat) (im : image) (y x : nat) (p : pixel),
    lookup_px im y x = Some p -> y < h -> x < w ->
    (exists k, exceeds_fraction (Z.of_nat k) w = true
               /\ run_of spec_light (row_cells im y w) k) ->
    lookup_px (row_pass h w im) y x = Some (clear_light p).

(** * Properties *)

(** ** Arrays: subscripts, assignments and loops *)

Lemma lookup_px_setpx (im : image) (y x y' x' : nat) (p : pixel) :
  lookup_px (setpx im y x p) y' x'
  = if (y' =? y) && (x' =? x) then (fun _ => p) <$> lookup_px im y' x'
    else lookup_px im y' x'.
Proof.
  unfold lookup_px, setpx. rewrite list_lookup_alter.
  destruct (decide (y = y')) as [->|Hy].
  - rewrite Nat.eqb_refl. simpl. destruct (im !! y') as [row|]; simpl.
    + rewrite list_lookup_insert.
      destruct (decide (x = x' ∧ x < length row)) as [[-> Hlt]|Hn].
      * rewrite Nat.eqb_refl.
        destruct (lookup_lt_is_Some_2 row x' Hlt) as [q ->]. reflexivity.
      * destruct (Nat.eqb_spec x' x) as [->|_]; [|reflexivity].
        rewrite lookup_ge_None_2; [reflexivity|]. lia.
    + destruct (x' =? x); reflexivity.
  - destruct (Nat.eqb_spec y' y) as [->|_]; [congruence|]. reflexivity.
Qed.

Lemma dims_setpx (im : image) (y x : nat) (p : pixel) :
  dims (setpx im y x p) = dims im.
Proof.
  unfold dims, setpx. apply list_eq. intros i.
  rewrite !list_lookup_fmap, list_lookup_alter.
  destruct (decide (y = i)) as [->|]; [|reflexivity].
  destruct (im !! i); simpl; [|reflexivity]. by rewrite length_insert.
Qed.

Lemma setpx_getpx (im : image) (y x : nat) : setpx im y x (getpx im y x) = im.
Proof.
  unfold setpx, getpx, lookup_px. apply list_eq. intros i.
  rewrite list_lookup_alter. destruct (decide (y = i)) as [->|]; [|reflexivity].
  destruct (im !! i) as [row|] eqn:E; simpl; [|reflexivity]. f_equal.
  destruct (row !! x) as [q|] eqn:Ex; simpl.
  - by apply list_insert_id.
  - apply list_insert_ge. by apply lookup_ge_None_1.
Qed.

(** Two arrays of one height with the same cells are the same array. *)
Lemma image_eq (a b : image) :
  length a = length b ->
  (forall y x, lookup_px a y x = lookup_px b y x) -> a = b.
Proof.
  intros Hlen Hpx. apply list_eq. intros y.
  destruct (a !! y) as [ra|] eqn:Ea, (b !! y) as [rb|] eqn:Eb.
  - f_equal. apply list_eq. intros x. specialize (Hpx y x).
    unfold lookup_px in Hpx. by rewrite Ea, Eb in Hpx.
  - apply lookup_lt_Some in Ea. apply lookup_ge_None_1 in Eb. lia.
  - apply lookup_lt_Some in Eb. apply lookup_ge_None_1 in Ea. lia.
  - reflexivity.
Qed.

Lemma dims_length (a b : image) : dims a = dims b -> length a = length b.
Proof. unfold dims. intros H. apply (f_equal length) in H. by rewrite !length_fmap in H. Qed.

Lemma wf_image_lookup (h w : nat) (im : image) (y x : nat) :
  wf_image h w im -> y < h -> x < w ->
  exists p, lookup_px im y x = Some p /\ valid_pixel p.
Proof.
  intros [Hh Hrows] Hy Hx. unfold lookup_px.
  destruct (lookup_lt_is_Some_2 im y) as [row Hrow]; [lia|].
  rewrite Hrow. simpl.
  destruct (Forall_lookup_1 _ _ _ _ Hrows Hrow) as [Hw Hv].
  destruct (lookup_lt_is_Some_2 row x) as [p Hp]; [lia|].
  exists p. split; [done|]. by eapply Forall_lookup_1.
Qed.

(** Inside the loops the subscript is in range, so [getpx] is the cell. *)
Lemma getpx_lookup (im : image) (y x : nat) (p : pixel) :
  lookup_px im y x = Some p -> getpx im y x = p.
Proof. unfold getpx. by intros ->. Qed.

Lemma wf_image_dims (h w : nat) (im : image) :
  wf_image h w im -> dims im = replicate h w.
Proof.
  intros [<- Hrows]. unfold dims.
  induction Hrows as [|row im' [Hw _] _ IH]; [done|].
  rewrite fmap_cons. simpl. by rewrite Hw, <- IH.
Qed.

Lemma wf_image_width (h w : nat) (im : image) :
  wf_image h w im -> 0 < h -> width im = w.
Proof.
  intros [Hh Hrows] Hpos. destruct im as [|row im']; simpl in *; [lia|].
  by apply Forall_cons in Hrows as [[? _] _].
Qed.

Lemma for_range_S {S : Type} (n : nat) (body : nat -> S -> S) (s : S) :
  for_range (Datatypes.S n) body s = body n (for_range n body s).
Proof. unfold for_range. rewrite seq_S, foldl_app. reflexivity. Qed.

Lemma for_range_invariant {S : Type} (P : S -> Prop) (n : nat)
    (body : nat -> S -> S) (s : S) :
  P s -> (forall i t, i < n -> P t -> P (body i t)) -> P (for_range n body s).
Proof.
  intros Hs Hbody. induction n as [|n IH]; [exact Hs|].
  rewrite for_range_S. apply Hbody; [lia|]. apply IH. intros; apply Hbody; [lia|done].
Qed.

(** A loop whose iteration [i] reads and writes only the cells it owns, no
    cell being owned twice: afterwards an owned cell holds what its iteration
    computes from the array as it was before the loop, and every other cell
    is unchanged. *)
Section owned_loops.
Context (step : nat -> image -> image).
Context (own : nat -> nat -> nat -> bool).
Context (out : nat -> image -> nat -> nat -> option pixel).
Hypothesis step_spec : forall i im y x,
  lookup_px (step i im) y x = if own i y x then out i im y x else lookup_px im y x.
Hypothesis out_local : forall i im im' y x,
  (forall y' x', own i y' x' = true -> lookup_px im y' x' = lookup_px im' y' x') ->
  own i y x = true -> out i im y x = out i im' y x.
Hypothesis own_once : forall i j y x,
  own i y x = true -> own j y x = true -> i = j.

Lemma for_range_frame (n : nat) (im : image) (y x : nat) :
  (forall i, i < n -> own i y x = false) ->
  lookup_px (for_range n step im) y x = lookup_px im y x.
Proof.
  induction n as [|n IH]; intros Hno; [reflexivity|].
  rewrite for_range_S, step_spec, (Hno n) by lia. apply IH. intros; apply Hno; lia.
Qed.

Lemma for_range_owned (n : nat) (im : image) (i y x : nat) :
  i < n -> own i y x = true ->
  lookup_px (for_range n step im) y x = out i im y x.
Proof.
  induction n as [|n IH]; intros Hi Hown; [lia|].
  rewrite for_range_S, step_spec.
  destruct (own n y x) eqn:En.
  - assert (i = n) as -> by (eapply own_once; eauto).
    apply out_local; [|done]. intros y' x' Hown'.
    apply for_range_frame. intros j Hj.
    destruct (own j y' x') eqn:Ej; [|done].
    assert (n = j) by (eapply own_once; eauto). lia.
  - apply IH; [|done]. destruct (decide (i = n)) as [->|]; [congruence|lia].
Qed.
End owned_loops.

(** ** Loops that assign cell by cell *)

Section pointwise_loops.
Context (step : nat -> nat -> image -> image) (f : nat -> nat -> pixel -> pixel).
Hypothesis step_pointwise : pointwise step f.

Lemma pointwise_step_lookup (y x : nat) (im : image) (y' x' : nat) :
  lookup_px (step y x im) y' x'
  = if (y' =? y) && (x' =? x) then f y x <$> lookup_px im y' x'
    else lookup_px im y' x'.
Proof.
  rewrite step_pointwise, lookup_px_setpx.
  destruct (Nat.eqb_spec y' y) as [->|]; [|done].
  destruct (Nat.eqb_spec x' x) as [->|]; [|done]. simpl.
  unfold getpx. by destruct (lookup_px im y x).
Qed.

(** [for x in range(w)] at a fixed row. *)
Lemma pointwise_along_row (y w : nat) (im : image) (y' x' : nat) :
  lookup_px (for_range w (fun x => step y x) im) y' x'
  = if (y' =? y) && (x' <? w) then f y x' <$> lookup_px im y' x'
    else lookup_px im y' x'.
Proof.
  set (own := fun x0 y1 x1 : nat => (y1 =? y) && (x1 =? x0)).
  set (out := fun (x0 : nat) (im0 : image) (y1 x1 : nat) => f y x0 <$> lookup_px im0 y1 x1).
  assert (Hstep : forall i im0 y1 x1, lookup_px (step y i im0) y1 x1
            = if own i y1 x1 then out i im0 y1 x1 else lookup_px im0 y1 x1).
  { intros. apply pointwise_step_lookup. }
  assert (Hloc : forall i im0 im1 y1 x1,
            (forall y2 x2, own i y2 x2 = true -> lookup_px im0 y2 x2 = lookup_px im1 y2 x2) ->
            own i y1 x1 = true -> out i im0 y1 x1 = out i im1 y1 x1).
  { intros i im0 im1 y1 x1 Hag Hown. unfold out. by rewrite (Hag _ _ Hown). }
  assert (Honce : forall i j y1 x1, own i y1 x1 = true -> own j y1 x1 = true -> i = j).
  { unfold own. intros i j y1 x1 [_ Hi%Nat.eqb_eq]%andb_true_iff [_ Hj%Nat.eqb_eq]%andb_true_iff. lia. }
  destruct (Nat.eqb_spec y' y) as [->|Hy]; simpl.
  - destruct (Nat.ltb_spec x' w) as [Hx|Hx].
    + apply (for_range_owned _ own out Hstep Hloc Honce w im x' y x' Hx).
      unfold own. by rewrite !Nat.eqb_refl.
    + apply (for_range_frame _ own out Hstep). intros i Hi. unfold own.
      destruct (Nat.eqb_spec x' i); [lia|]. by rewrite andb_false_r.
  - apply (for_range_frame _ own out Hstep). intros i Hi. unfold own.
    destruct (Nat.eqb_spec y' y); [lia|done].
Qed.

(** [for y in range(h)] at a fixed column. *)
Lemma pointwise_along_col (x h : nat) (im : image) (y' x' : nat) :
  lookup_px (for_range h (fun y => step y x) im) y' x'
  = if (y' <? h) && (x' =? x) then f y' x <$> lookup_px im y' x'
    else lookup_px im y' x'.
Proof.
  set (own := fun y0 y1 x1 : nat => (y1 =? y0) && (x1 =? x)).
  set (out := fun (y0 : nat) (im0 : image) (y1 x1 : nat) => f y0 x <$> lookup_px im0 y1 x1).
  assert (Hstep : forall i im0 y1 x1, lookup_px (step i x im0) y1 x1
            = if own i y1 x1 then out i im0 y1 x1 else lookup_px im0 y1 x1).
  { intros. apply pointwise_step_lookup. }
  assert (Hloc : forall i im0 im1 y1 x1,
            (forall y2 x2, own i y2 x2 = true -> lookup_px im0 y2 x2 = lookup_px im1 y2 x2) ->
            own i y1 x1 = true -> out i im0 y1 x1 = out i im1 y1 x1).
  { intros i im0 im1 y1 x1 Hag Hown. unfold out. by rewrite (Hag _ _ Hown). }
  assert (Honce : forall i j y1 x1, own i y1 x1 = true -> own j y1 x1 = true -> i = j).
  { unfold own. intros i j y1 x1 [Hi%Nat.eqb_eq _]%andb_true_iff [Hj%Nat.eqb_eq _]%andb_true_iff. lia. }
  destruct (Nat.eqb_spec x' x) as [->|Hx].
  - destruct (Nat.ltb_spec y' h) as [Hy|Hy]; simpl.
    + apply (for_range_owned _ own out Hstep Hloc Honce h im y' y' x Hy).
      unfold own. by rewrite !Nat.eqb_refl.
    + apply (for_range_frame _ own out Hstep). intros i Hi. unfold own.
      destruct (Nat.eqb_spec y' i); [lia|done].
  - rewrite andb_false_r.
    apply (for_range_frame _ own out Hstep). intros i Hi. unfold own.
    destruct (Nat.eqb_spec x' x); [lia|]. by rewrite andb_false_r.
Qed.

(** [for y in range(h): for x in range(w)]. *)
Lemma pointwise_nested (h w : nat) (im : image) (y' x' : nat) :
  lookup_px (for_range h (fun y => for_range w (fun x => step y x)) im) y' x'
  = if (y' <? h) && (x' <? w) then f y' x' <$> lookup_px im y' x'
    else lookup_px im y' x'.
Proof.
  set (own := fun y0 y1 x1 : nat => (y1 =? y0)).
  set (out := fun (y0 : nat) (im0 : image) (y1 x1 : nat) =>
                if x1 <? w then f y0 x1 <$> lookup_px im0 y1 x1 else lookup_px im0 y1 x1).
  assert (Hstep : forall i im0 y1 x1,
            lookup_px (for_range w (fun x => step i x) im0) y1 x1
            = if own i y1 x1 then out i im0 y1 x1 else lookup_px im0 y1 x1).
  { intros. rewrite pointwise_along_row. unfold own, out.
    destruct (y1 =? i), (x1 <? w); done. }
  assert (Hloc : forall i im0 im1 y1 x1,
            (forall y2 x2, own i y2 x2 = true -> lookup_px im0 y2 x2 = lookup_px im1 y2 x2) ->
            own i y1 x1 = true -> out i im0 y1 x1 = out i im1 y1 x1).
  { intros i im0 im1 y1 x1 Hag Hown. unfold out. by rewrite (Hag _ _ Hown). }
  assert (Honce : forall i j y1 x1, own i y1 x1 = true -> own j y1 x1 = true -> i = j).
  { unfold own. intros i j y1 x1 Hi%Nat.eqb_eq Hj%Nat.eqb_eq. lia. }
  destruct (Nat.ltb_spec y' h) as [Hy|Hy]; simpl.
  - apply (for_range_owned _ own out Hstep Hloc Honce h im y' y' x' Hy).
    unfold own. by rewrite Nat.eqb_refl.
  - apply (for_range_frame _ own out Hstep). intros i Hi. unfold own.
    destruct (Nat.eqb_spec y' i); [lia|done].
Qed.
End pointwise_loops.

(** ** What each pass does to a cell *)

Lemma mask_step_pointwise (data : image) (bg : bg_color) :
  pointwise (mask_step data bg) (mask_cell data bg).
Proof.
  intros y x im. unfold mask_step, mask_cell. cbv zeta.
  destruct (color_diff_lt bg (getpx data y x) tolerance);
    [destruct (mean_gt (getpx data y x) 180)|destruct (mean_gt (getpx data y x) 240)];
    by rewrite ?setpx_getpx.
Qed.

Lemma mask_pass_lookup (data : image) (bg : bg_color) (h w : nat) (im : image)
    (y x : nat) :
  lookup_px (mask_pass data bg h w im) y x
  = if (y <? h) && (x <? w) then mask_cell data bg y x <$> lookup_px im y x
    else lookup_px im y x.
Proof. apply (pointwise_nested _ _ (mask_step_pointwise data bg)). Qed.

Lemma clear_step_pointwise : pointwise clear_step (fun _ _ => clear_light).
Proof.
  intros y x im. unfold clear_step, clear_light.
  destruct (mean_gt _ 200); by rewrite ?setpx_getpx.
Qed.

Lemma clear_row_lookup (y w : nat) (im : image) (y' x' : nat) :
  lookup_px (clear_row y w im) y' x'
  = if (y' =? y) && (x' <? w) then clear_light <$> lookup_px im y' x'
    else lookup_px im y' x'.
Proof. apply (pointwise_along_row _ _ clear_step_pointwise). Qed.

Lemma clear_col_lookup (x h : nat) (im : image) (y' x' : nat) :
  lookup_px (clear_col x h im) y' x'
  = if (y' <? h) && (x' =? x) then clear_light <$> lookup_px im y' x'
    else lookup_px im y' x'.
Proof. apply (pointwise_along_col _ _ clear_step_pointwise). Qed.

Lemma row_scan_hits (y w : nat) (xs : list nat) (count : Z) (im : image) :
  row_scan y w xs count im
  = if scan_hits w (getpx im y <$> xs) count then clear_row y w im else im.
Proof.
  revert count. induction xs as [|x xs IH]; intros count; [done|].
  simpl. destruct (exceeds_fraction _ w); [done|]. apply IH.
Qed.

Lemma col_scan_hits (x h : nat) (ys : list nat) (count : Z) (im : image) :
  col_scan x h ys count im
  = if scan_hits h ((fun y => getpx im y x) <$> ys) count then clear_col x h im else im.
Proof.
  revert count. induction ys as [|y ys IH]; intros count; [done|].
  simpl. destruct (exceeds_fraction _ h); [done|]. apply IH.
Qed.

Lemma getpx_agree (im im' : image) (y x : nat) :
  lookup_px im y x = lookup_px im' y x -> getpx im y x = getpx im' y x.
Proof. unfold getpx. by intros ->. Qed.

Lemma row_pass_lookup (h w : nat) (im : image) (y x : nat) :
  lookup_px (row_pass h w im) y x
  = if (y <? h) && (x <? w) && scan_hits w (row_cells im y w) 0
    then clear_light <$> lookup_px im y x else lookup_px im y x.
Proof.
  set (own := fun y0 y1 x1 : nat => (y1 =? y0)).
  set (out := fun (y0 : nat) (im0 : image) (y1 x1 : nat) =>
                if (x1 <? w) && scan_hits w (row_cells im0 y0 w) 0
                then clear_light <$> lookup_px im0 y1 x1 else lookup_px im0 y1 x1).
  assert (Hstep : forall i im0 y1 x1,
            lookup_px (row_scan i w (seq 0 w) 0 im0) y1 x1
            = if own i y1 x1 then out i im0 y1 x1 else lookup_px im0 y1 x1).
  { intros. rewrite row_scan_hits. unfold own, out, row_cells.
    destruct (scan_hits _ _ _); rewrite ?clear_row_lookup;
      destruct (y1 =? i), (x1 <? w); done. }
  assert (Hloc : forall i im0 im1 y1 x1,
            (forall y2 x2, own i y2 x2 = true -> lookup_px im0 y2 x2 = lookup_px im1 y2 x2) ->
            own i y1 x1 = true -> out i im0 y1 x1 = out i im1 y1 x1).
  { intros i im0 im1 y1 x1 Hag Hown. unfold out, row_cells.
    rewrite (Hag _ _ Hown).
    replace (getpx im0 i <$> seq 0 w) with (getpx im1 i <$> seq 0 w); [done|].
    apply list_fmap_ext. intros _ x2 _. symmetry. apply getpx_agree, Hag.
    unfold own. apply Nat.eqb_refl. }
  assert (Honce : forall i j y1 x1, own i y1 x1 = true -> own j y1 x1 = true -> i = j).
  { unfold own. intros i j y1 x1 Hi%Nat.eqb_eq Hj%Nat.eqb_eq. lia. }
  destruct (Nat.ltb_spec y h) as [Hy|Hy]; simpl.
  - unfold row_pass.
    etrans; [apply (for_range_owned _ own out Hstep Hloc Honce h im y y x Hy);
             unfold own; apply Nat.eqb_refl|].
    done.
  - apply (for_range_frame _ own out Hstep). intros i Hi. unfold own.
    destruct (Nat.eqb_spec y i); [lia|done].
Qed.

Lemma col_pass_lookup (h w : nat) (im : image) (y x : nat) :
  lookup_px (col_pass h w im) y x
  = if (y <? h) && (x <? w) && scan_hits h (col_cells im x h) 0
    then clear_light <$> lookup_px im y x else lookup_px im y x.
Proof.
  set (own := fun x0 y1 x1 : nat => (x1 =? x0)).
  set (out := fun (x0 : nat) (im0 : image) (y1 x1 : nat) =>
                if (y1 <? h) && scan_hits h (col_cells im0 x0 h) 0
                then clear_light <$> lookup_px im0 y1 x1 else lookup_px im0 y1 x1).
  assert (Hstep : forall i im0 y1 x1,
            lookup_px (col_scan i h (seq 0 h) 0 im0) y1 x1
            = if own i y1 x1 then out i im0 y1 x1 else lookup_px im0 y1 x1).
  { intros. rewrite col_scan_hits. unfold own, out, col_cells.
    destruct (scan_hits _ _ _); rewrite ?clear_col_lookup;
      destruct (x1 =? i), (y1 <? h); done. }
  assert (Hloc : forall i im0 im1 y1 x1,
            (forall y2 x2, own i y2 x2 = true -> lookup_px im0 y2 x2 = lookup_px im1 y2 x2) ->
            own i y1 x1 = true -> out i im0 y1 x1 = out i im1 y1 x1).
  { intros i im0 im1 y1 x1 Hag Hown. unfold out, col_cells.
    rewrite (Hag _ _ Hown).
    replace ((fun y => getpx im0 y i) <$> seq 0 h)
      with ((fun y => getpx im1 y i) <$> seq 0 h); [done|].
    apply list_fmap_ext. intros _ y2 _. symmetry. apply getpx_agree, Hag.
    unfold own. apply Nat.eqb_refl. }
  assert (Honce : forall i j y1 x1, own i y1 x1 = true -> own j y1 x1 = true -> i = j).
  { unfold own. intros i j y1 x1 Hi%Nat.eqb_eq Hj%Nat.eqb_eq. lia. }
  destruct (Nat.ltb_spec x w) as [Hx|Hx]; simpl.
  - unfold col_pass.
    etrans; [apply (for_range_owned _ own out Hstep Hloc Honce w im x y x Hx);
             unfold own; apply Nat.eqb_refl|].
    unfold out. by destruct (y <? h).
  - rewrite andb_false_r. simpl.
    apply (for_range_frame _ own out Hstep). intros i Hi. unfold own.
    destruct (Nat.eqb_spec x i); [lia|done].
Qed.

Lemma protect_step_pointwise (m : promotion) (data : image) :
  pointwise (protect_step m data) (protect_cell m data).
Proof.
  intros y x im. unfold protect_step, protect_cell. cbv zeta.
  destruct (blue_dominant m (getpx im y x)), (15 <? spread (getpx im y x))%Z,
    (alpha (getpx im y x) =? 0)%Z; by rewrite ?setpx_getpx.
Qed.

Lemma protect_pass_lookup (m : promotion) (data : image) (h w : nat) (im : image)
    (y x : nat) :
  lookup_px (protect_pass m data h w im) y x
  = if (y <? h) && (x <? w) then protect_cell m data y x <$> lookup_px im y x
    else lookup_px im y x.
Proof. apply (pointwise_nested _ _ (protect_step_pointwise m data)). Qed.

(** ** Shape *)

Lemma dims_for_range (n : nat) (body : nat -> image -> image) (im : image) :
  (forall i t, dims (body i t) = dims t) -> dims (for_range n body im) = dims im.
Proof.
  intros Hbody. apply (for_range_invariant (fun t => dims t = dims im)); [done|].
  intros i t _ <-. apply Hbody.
Qed.

Lemma dims_pointwise (step : nat -> nat -> image -> image)
    (f : nat -> nat -> pixel -> pixel) (y x : nat) (im : image) :
  pointwise step f -> dims (step y x im) = dims im.
Proof. intros ->. apply dims_setpx. Qed.

Lemma dims_mask_pass (data : image) (bg : bg_color) (h w : nat) (im : image) :
  dims (mask_pass data bg h w im) = dims im.
Proof.
  unfold mask_pass. apply dims_for_range. intros y t. apply dims_for_range.
  intros x t'. apply (dims_pointwise _ _ _ _ _ (mask_step_pointwise data bg)).
Qed.

Lemma dims_clear_row (y w : nat) (im : image) : dims (clear_row y w im) = dims im.
Proof.
  unfold clear_row. apply dims_for_range. intros x t.
  apply (dims_pointwise clear_step _ y x t clear_step_pointwise).
Qed.

Lemma dims_clear_col (x h : nat) (im : image) : dims (clear_col x h im) = dims im.
Proof.
  unfold clear_col. apply dims_for_range. intros y t.
  apply (dims_pointwise clear_step _ y x t clear_step_pointwise).
Qed.

Lemma dims_row_pass (h w : nat) (im : image) : dims (row_pass h w im) = dims im.
Proof.
  unfold row_pass. apply dims_for_range. intros y t. rewrite row_scan_hits.
  destruct (scan_hits _ _ _); [apply dims_clear_row|done].
Qed.

Lemma dims_col_pass (h w : nat) (im : image) : dims (col_pass h w im) = dims im.
Proof.
  unfold col_pass. apply dims_for_range. intros x t. rewrite col_scan_hits.
  destruct (scan_hits _ _ _); [apply dims_clear_col|done].
Qed.

Lemma dims_protect_pass (m : promotion) (data : image) (h w : nat) (im : image) :
  dims (protect_pass m data h w im) = dims im.
Proof.
  unfold protect_pass. apply dims_for_range. intros y t. apply dims_for_range.
  intros x t'. apply (dims_pointwise _ _ _ _ _ (protect_step_pointwise m data)).
Qed.

Lemma dims_smooth_more (im : image) : dims (smooth_more im) = dims im.
Proof.
  unfold smooth_more. destruct (_ || _); [done|].
  unfold dims. apply list_eq. intros y.
  rewrite !list_lookup_fmap, list_lookup_imap.
  destruct (im !! y); simpl; [|done]. by rewrite length_imap.
Qed.

Lemma dims_classify (m : promotion) (data : image)
    (corners : pixel * pixel * pixel * pixel) :
  dims (classify m data corners) = dims data.
Proof.
  unfold classify.
  by rewrite dims_protect_pass, dims_col_pass, dims_row_pass, dims_mask_pass.
Qed.

Lemma dims_height (a b : image) : dims a = dims b -> height a = height b.
Proof. apply dims_length. Qed.

Lemma dims_width (a b : image) : dims a = dims b -> width a = width b.
Proof.
  unfold dims, width. destruct a, b; simpl; try done. by intros [= -> _].
Qed.

(** ** Every pass keeps a cell or clears it *)

Lemma kept_or_cleared_refl (data : image) : kept_or_cleared data data.
Proof. intros y x. by left. Qed.

Lemma kept_or_cleared_fmap (data im : image) (f : pixel -> pixel) (y x : nat) :
  (forall p, f p = p \/ f p = transparent) ->
  kept_or_cleared data im ->
  f <$> lookup_px im y x = lookup_px data y x
  \/ f <$> lookup_px im y x = (fun _ => transparent) <$> lookup_px data y x.
Proof.
  intros Hf Him. destruct (Him y x) as [->| ->].
  - destruct (lookup_px data y x) as [d|]; simpl; [|by left].
    destruct (Hf d) as [->| ->]; auto.
  - destruct (lookup_px data y x) as [d|]; simpl; [|by left].
    destruct (Hf transparent) as [->| ->]; auto.
Qed.

Lemma mask_cell_cases (data : image) (bg : bg_color) (y x : nat) (p : pixel) :
  mask_cell data bg y x p = p \/ mask_cell data bg y x p = transparent.
Proof.
  unfold mask_cell. cbv zeta.
  destruct (color_diff_lt _ _ _); [destruct (mean_gt _ 180)|destruct (mean_gt _ 240)]; auto.
Qed.

Lemma clear_light_cases (p : pixel) : clear_light p = p \/ clear_light p = transparent.
Proof. unfold clear_light. destruct (mean_gt p 200); auto. Qed.

Lemma kept_or_cleared_mask (data : image) (bg : bg_color) (h w : nat) (im : image) :
  kept_or_cleared data im -> kept_or_cleared data (mask_pass data bg h w im).
Proof.
  intros Him y x. rewrite mask_pass_lookup.
  destruct (_ && _); [|apply Him].
  apply kept_or_cleared_fmap; [apply mask_cell_cases|done].
Qed.

Lemma kept_or_cleared_row (data : image) (h w : nat) (im : image) :
  kept_or_cleared data im -> kept_or_cleared data (row_pass h w im).
Proof.
  intros Him y x. rewrite row_pass_lookup.
  destruct (_ && _); [|apply Him].
  apply kept_or_cleared_fmap; [apply clear_light_cases|done].
Qed.

Lemma kept_or_cleared_col (data : image) (h w : nat) (im : image) :
  kept_or_cleared data im -> kept_or_cleared data (col_pass h w im).
Proof.
  intros Him y x. rewrite col_pass_lookup.
  destruct (_ && _); [|apply Him].
  apply kept_or_cleared_fmap; [apply clear_light_cases|done].
Qed.

(** On the stored value [[0, 0, 0, 0]] neither protection rule fires, under
    either promotion rule: [0 + 10] is 10 and does not wrap. *)
Lemma protect_cell_transparent (m : promotion) (data : image) (y x : nat) :
  protect_cell m data y x transparent = transparent.
Proof. by destruct m. Qed.

(** On a cell that still holds its input value, restoring writes that value
    back. *)
Lemma protect_cell_kept (m : promotion) (data : image) (y x : nat) :
  protect_cell m data y x (getpx data y x) = getpx data y x.
Proof.
  unfold protect_cell.
  destruct (blue_dominant _ _); [by destruct (alpha _ =? 0)%Z|].
  destruct (15 <? spread _)%Z; [by destruct (alpha _ =? 0)%Z|done].
Qed.

Lemma protect_pass_id (m : promotion) (data : image) (h w : nat) (im : image) :
  kept_or_cleared data im -> protect_pass m data h w im = im.
Proof.
  intros Him. apply image_eq.
  - apply dims_length, dims_protect_pass.
  - intros y x. rewrite protect_pass_lookup.
    destruct (_ && _); [|done].
    destruct (Him y x) as [E|E]; rewrite E.
    + destruct (lookup_px data y x) as [d|] eqn:Ed; simpl; [|done].
      f_equal. rewrite <- (getpx_lookup _ _ _ _ Ed). apply protect_cell_kept.
    + destruct (lookup_px data y x) as [d|]; simpl; [|done].
      f_equal. apply protect_cell_transparent.
Qed.

Lemma kept_or_cleared_suppressed (data : image) (bg : bg_color) :
  kept_or_cleared data (suppressed data bg).
Proof.
  apply kept_or_cleared_col, kept_or_cleared_row, kept_or_cleared_mask,
    kept_or_cleared_refl.
Qed.

Lemma classify_suppressed (m : promotion) (data : image)
    (corners : pixel * pixel * pixel * pixel) :
  classify m data corners = suppressed data (mean_color corners).
Proof. apply protect_pass_id, kept_or_cleared_suppressed. Qed.

(** ** The smoothing filter *)

Lemma smooth_more_lookup (im : image) (y x : nat) :
  lookup_px (smooth_more im) y x
  = if interior (height im) (width im) y x
    then (fun _ => smoothed_cell im y x) <$> lookup_px im y x
    else lookup_px im y x.
Proof.
  unfold smooth_more.
  destruct ((width im <? 5) || (height im <? 5)) eqn:Esmall.
  - assert (interior (height im) (width im) y x = false) as ->; [|done].
    unfold interior. apply orb_true_iff in Esmall as [H%Nat.ltb_lt|H%Nat.ltb_lt].
    + destruct (Nat.leb_spec 2 x), (Nat.ltb_spec (x + 2) (width im));
        rewrite ?andb_false_r; try done; lia.
    + destruct (Nat.leb_spec 2 y), (Nat.ltb_spec (y + 2) (height im));
        rewrite ?andb_false_r; try done; lia.
  - unfold lookup_px. rewrite list_lookup_imap.
    destruct (im !! y) as [row|]; simpl; [|by destruct (interior _ _ _ _)].
    rewrite list_lookup_imap. destruct (row !! x); simpl; [|by destruct (interior _ _ _ _)].
    by destruct (interior _ _ _ _).
Qed.

Lemma smooth_more_small (im : image) :
  width im < 5 \/ height im < 5 -> smooth_more im = im.
Proof.
  intros H. unfold smooth_more.
  assert ((width im <? 5) || (height im <? 5) = true) as ->; [|done].
  apply orb_true_iff. destruct H; [left|right]; by apply Nat.ltb_lt.
Qed.

(** The 25 terms of the weighted sum. *)
Lemma weighted_sum_unfold (band : pixel -> Z) (im : image) (y x : nat) :
  weighted_sum band im y x =
  (let c (dy dx : nat) := band (getpx im (y + dy - 2) (x + dx - 2)) in
   (1 * c 0%nat 0%nat + (1 * c 0%nat 1%nat + (1 * c 0%nat 2%nat + (1 * c 0%nat 3%nat + (1 * c 0%nat 4%nat + 0)))))
   + ((1 * c 1%nat 0%nat + (5 * c 1%nat 1%nat + (5 * c 1%nat 2%nat + (5 * c 1%nat 3%nat + (1 * c 1%nat 4%nat + 0)))))
   + ((1 * c 2%nat 0%nat + (5 * c 2%nat 1%nat + (44 * c 2%nat 2%nat + (5 * c 2%nat 3%nat + (1 * c 2%nat 4%nat + 0)))))
   + ((1 * c 3%nat 0%nat + (5 * c 3%nat 1%nat + (5 * c 3%nat 2%nat + (5 * c 3%nat 3%nat + (1 * c 3%nat 4%nat + 0)))))
   + ((1 * c 4%nat 0%nat + (1 * c 4%nat 1%nat + (1 * c 4%nat 2%nat + (1 * c 4%nat 3%nat + (1 * c 4%nat 4%nat + 0)))))
   + 0)))))%Z.
Proof. reflexivity. Qed.

(** The centre of the kernel weighs 44 of 100: with no band below 0, the
    weighted sum is at least 44 times the centre. *)
Lemma weighted_sum_centre (band : pixel -> Z) (im : image) (y x : nat) :
  (forall y' x', 0 <= band (getpx im y' x'))%Z ->
  (44 * band (getpx im y x) <= weighted_sum band im y x)%Z.
Proof.
  intros Hpos. rewrite weighted_sum_unfold. cbv beta zeta.
  replace (y + 2 - 2) with y by lia. replace (x + 2 - 2) with x by lia.
  repeat match goal with
  | |- context [band (getpx im ?a ?b)] =>
      let H := fresh in
      pose proof (Hpos a b) as H; revert H;
      generalize (band (getpx im a b)); intros ? ?
  end.
  lia.
Qed.

Lemma weighted_sum_zero (band : pixel -> Z) (im : image) (y x : nat) :
  (forall y' x', band (getpx im y' x') = 0)%Z -> weighted_sum band im y x = 0%Z.
Proof. intros H0. rewrite weighted_sum_unfold. cbv beta zeta. by rewrite !H0. Qed.

Lemma clip8_uint8 (v : Z) : uint8 (clip8 v).
Proof.
  unfold clip8, uint8.
  destruct (Z.leb_spec v 0); [lia|]. destruct (Z.leb_spec 255 v); lia.
Qed.

Lemma clip8_mono (u v : Z) : (u <= v)%Z -> (clip8 u <= clip8 v)%Z.
Proof.
  unfold clip8. intros Huv.
  destruct (Z.leb_spec u 0), (Z.leb_spec v 0), (Z.leb_spec 255 u), (Z.leb_spec 255 v); lia.
Qed.

(** An opaque cell keeps an alpha of at least 112 through the filter. *)
Lemma filter_band_opaque (im : image) (y x : nat) :
  (forall y' x', 0 <= alpha (getpx im y' x'))%Z ->
  alpha (getpx im y x) = 255%Z ->
  (112 <= filter_band alpha im y x)%Z.
Proof.
  intros Hpos Hc. unfold filter_band.
  pose proof (weighted_sum_centre alpha im y x Hpos) as Hw. rewrite Hc in Hw.
  change 112%Z with (clip8 112). apply clip8_mono.
  apply Z.div_le_lower_bound; lia.
Qed.

Lemma smooth_more_keeps_opaque (im : image) (y x : nat) (p : pixel) :
  nonneg_alpha im -> lookup_px im y x = Some p -> alpha p = 255%Z ->
  exists q, lookup_px (smooth_more im) y x = Some q /\ (112 <= alpha q)%Z.
Proof.
  intros Hpos Hp Ha. rewrite smooth_more_lookup, Hp.
  destruct (interior _ _ _ _); simpl.
  - eexists; split; [done|]. simpl. apply filter_band_opaque; [done|].
    by rewrite (getpx_lookup _ _ _ _ Hp).
  - exists p. split; [done|]. lia.
Qed.

Lemma all_transparent_getpx (im : image) (y x : nat) :
  all_transparent im -> getpx im y x = transparent.
Proof.
  intros H. unfold getpx. destruct (lookup_px im y x) as [q|] eqn:E; [|done].
  apply (H _ _ _ E).
Qed.

Lemma all_transparent_smooth_more (im : image) :
  all_transparent im -> all_transparent (smooth_more im).
Proof.
  intros H y x q. rewrite smooth_more_lookup.
  destruct (interior _ _ _ _); [|apply H].
  destruct (lookup_px im y x); simpl; [|done]. intros [= <-].
  unfold smoothed_cell, filter_band.
  rewrite !weighted_sum_zero; [done| | | |];
    intros y' x'; by rewrite all_transparent_getpx.
Qed.

(** ** Arrays of positive height and width *)

Lemma wf_image_lookup_range (h w : nat) (im : image) (y x : nat) (p : pixel) :
  wf_image h w im -> lookup_px im y x = Some p -> y < h /\ x < w /\ valid_pixel p.
Proof.
  intros [Hh Hrows]. unfold lookup_px.
  destruct (im !! y) as [row|] eqn:Erow; simpl; [|done]. intros Hp.
  destruct (Forall_lookup_1 _ _ _ _ Hrows Erow) as [Hw Hv].
  apply lookup_lt_Some in Erow. pose proof (lookup_lt_Some _ _ _ Hp).
  split; [lia|]. split; [lia|]. by eapply Forall_lookup_1.
Qed.

Lemma corner_colors_wf (h w : nat) (data : image) :
  wf_image h w data -> 0 < h -> 0 < w ->
  exists tl tr bl br,
    corner_colors data (height data) (width data) = Some (tl, tr, bl, br)
    /\ lookup_px data 0 0 = Some tl /\ lookup_px data 0 (w - 1) = Some tr
    /\ lookup_px data (h - 1) 0 = Some bl /\ lookup_px data (h - 1) (w - 1) = Some br.
Proof.
  intros Hwf Hh Hw.
  rewrite (wf_image_width _ _ _ Hwf Hh).
  assert (height data = h) as -> by apply Hwf.
  destruct (wf_image_lookup h w data 0 0 Hwf) as (tl & Etl & _); [lia..|].
  destruct (wf_image_lookup h w data 0 (w - 1) Hwf) as (tr & Etr & _); [lia..|].
  destruct (wf_image_lookup h w data (h - 1) 0 Hwf) as (bl & Ebl & _); [lia..|].
  destruct (wf_image_lookup h w data (h - 1) (w - 1) Hwf) as (br & Ebr & _); [lia..|].
  exists tl, tr, bl, br. unfold corner_colors. rewrite Etl, Etr, Ebl, Ebr. done.
Qed.

Lemma remove_grid_background_returns (m : promotion) (data : image) (h w : nat) :
  wf_image h w data -> 0 < h -> 0 < w ->
  exists corners,
    corner_colors data (height data) (width data) = Some corners
    /\ remove_grid_background m data
       = inr (smooth_more (suppressed data (mean_color corners))).
Proof.
  intros Hwf Hh Hw.
  destruct (corner_colors_wf h w data Hwf Hh Hw) as (tl & tr & bl & br & E & _).
  exists (tl, tr, bl, br). split; [done|].
  unfold remove_grid_background. rewrite E. by rewrite classify_suppressed.
Qed.

Lemma dims_suppressed (data : image) (bg : bg_color) :
  dims (suppressed data bg) = dims data.
Proof. unfold suppressed. by rewrite dims_col_pass, dims_row_pass, dims_mask_pass. Qed.

(** ** Colours *)

Lemma same_rgb_mean_gt (p c : pixel) (t : Z) :
  same_rgb p c -> mean_gt p t = mean_gt c t.
Proof. intros (Hr & Hg & Hb). unfold mean_gt, channel_sum. by rewrite Hr, Hg, Hb. Qed.

(** The estimate from four corners of the colour [c] is [c], at distance 0
    from every pixel of that colour. *)
Lemma color_diff_uniform (tl tr bl br c d : pixel) :
  same_rgb tl c -> same_rgb tr c -> same_rgb bl c -> same_rgb br c ->
  same_rgb d c ->
  color_diff_lt (mean_color (tl, tr, bl, br)) d tolerance = true.
Proof.
  intros (?&?&?) (?&?&?) (?&?&?) (?&?&?) (?&?&?).
  unfold color_diff_lt, color_diff_sq16, mean_color, tolerance. simpl.
  apply Z.ltb_lt.
  replace (4 * red d - (red tl + red tr + red bl + red br))%Z with 0%Z by lia.
  replace (4 * green d - (green tl + green tr + green bl + green br))%Z with 0%Z by lia.
  replace (4 * blue d - (blue tl + blue tr + blue bl + blue br))%Z with 0%Z by lia.
  done.
Qed.

Lemma mean_gt_mono (p : pixel) (s t : Z) :
  (s <= t)%Z -> mean_gt p t = true -> mean_gt p s = true.
Proof. unfold mean_gt. intros Hst Ht%Z.ltb_lt. apply Z.ltb_lt. lia. Qed.

Lemma clear_light_transparent : clear_light transparent = transparent.
Proof. reflexivity. Qed.

Lemma clear_light_dark (p : pixel) : mean_gt p 200 = false -> clear_light p = p.
Proof. unfold clear_light. by intros ->. Qed.

(** Once a cell is [[0, 0, 0, 0]] the suppressor leaves it so; a cell of mean
    brightness at most 200 is left as it is. *)
Lemma row_pass_fixed (h w : nat) (im : image) (y x : nat) (p : pixel) :
  clear_light p = p -> lookup_px im y x = Some p ->
  lookup_px (row_pass h w im) y x = Some p.
Proof.
  intros Hp E. rewrite row_pass_lookup, E. destruct (_ && _); simpl; by rewrite ?Hp.
Qed.

Lemma col_pass_fixed (h w : nat) (im : image) (y x : nat) (p : pixel) :
  clear_light p = p -> lookup_px im y x = Some p ->
  lookup_px (col_pass h w im) y x = Some p.
Proof.
  intros Hp E. rewrite col_pass_lookup, E. destruct (_ && _); simpl; by rewrite ?Hp.
Qed.

Lemma all_transparent_suppressed (data : image) (bg : bg_color) :
  all_transparent (mask_pass data bg (height data) (width data) data) ->
  all_transparent (suppressed data bg).
Proof.
  intros Hmask y x q. unfold suppressed.
  rewrite col_pass_lookup, row_pass_lookup.
  destruct (lookup_px (mask_pass _ _ _ _ _) y x) as [p|] eqn:E.
  - rewrite (Hmask _ _ _ E).
    destruct (_ && _), (_ && _); simpl; by intros [= <-].
  - by destruct (_ && _), (_ && _).
Qed.

Lemma corner_colors_lookup (data : image) (h w : nat) (tl tr bl br : pixel) :
  corner_colors data h w = Some (tl, tr, bl, br) ->
  lookup_px data 0 0 = Some tl /\ lookup_px data 0 (w - 1) = Some tr
  /\ lookup_px data (h - 1) 0 = Some bl /\ lookup_px data (h - 1) (w - 1) = Some br.
Proof.
  unfold corner_colors.
  destruct (lookup_px data 0 0); simpl; [|done].
  destruct (lookup_px data 0 (w - 1)); simpl; [|done].
  destruct (lookup_px data (h - 1) 0); simpl; [|done].
  destruct (lookup_px data (h - 1) (w - 1)); simpl; [|done].
  by intros [= -> -> -> ->].
Qed.

Lemma wf_nonneg_alpha (h w : nat) (im : image) : wf_image h w im -> nonneg_alpha im.
Proof.
  intros Hwf y x. unfold getpx.
  destruct (lookup_px im y x) as [p|] eqn:E; simpl; [|done].
  destruct (wf_image_lookup_range _ _ _ _ _ _ Hwf E) as (_ & _ & _ & _ & _ & Ha).
  apply Ha.
Qed.

Lemma nonneg_alpha_protect_pass (m : promotion) (data res : image) (h w : nat) :
  nonneg_alpha data -> nonneg_alpha res ->
  nonneg_alpha (protect_pass m data h w res).
Proof.
  intros Hd Hr y x. unfold getpx. rewrite protect_pass_lookup.
  specialize (Hr y x). unfold getpx in Hr.
  destruct (_ && _); [|done].
  destruct (lookup_px res y x) as [p|]; simpl in *; [|done].
  unfold protect_cell.
  destruct (blue_dominant m p); [destruct (alpha p =? 0)%Z; [apply Hd|done]|].
  destruct (15 <? spread p)%Z; [destruct (alpha p =? 0)%Z; [apply Hd|done]|done].
Qed.

(** ** The sample images are arrays *)

Lemma wf_dark_dot : wf_image 5 5 dark_dot.
Proof. solve_wf. Qed.

Lemma wf_tinted_dot : wf_image 3 3 tinted_dot.
Proof. solve_wf. Qed.

(** * The properties of the specification *)

(** ** C3: the decision of the colour-distance mask *)

(** C3.  For every cell [(y, x)] of the input, the colour-distance mask pass
    stores [[0, 0, 0, 0]] there exactly when (the colour distance to the
    estimated background is below the tolerance and the mean brightness is
    above 180) or the mean brightness is above 240, and leaves the cell as it
    was otherwise: the [if]/[elif] of the source is this disjunction. *)
Theorem mask_pass_disjunction (data : image) (bg : bg_color) (h w y x : nat)
    (d : pixel) :
  lookup_px data y x = Some d -> y < h -> x < w ->
  lookup_px (mask_pass data bg h w data) y x
  = Some (if (color_diff_lt bg d tolerance && mean_gt d 180) || mean_gt d 240
          then transparent else d).
Proof.
  intros Hd Hy Hx. rewrite mask_pass_lookup, Hd.
  apply Nat.ltb_lt in Hy, Hx. rewrite Hy, Hx. simpl. f_equal.
  unfold mask_cell. rewrite (getpx_lookup _ _ _ _ Hd).
  destruct (color_diff_lt bg d tolerance); simpl; [|done].
  destruct (mean_gt d 240) eqn:E240.
  - by rewrite (mean_gt_mono d 180 240) by (done || lia).
  - by rewrite orb_false_r.
Qed.

Lemma mask_pass_disjunction_witness :
  lookup_px (mask_pass tinted_dot (mean_color (white, white, white, white)) 3 3 tinted_dot) 1 1
  = Some transparent.
Proof.
  apply (mask_pass_disjunction tinted_dot (mean_color (white, white, white, white))
           3 3 1 1 blue_tinted); [reflexivity | lia | lia].
Defined.

(** ** C5: the protector changes nothing *)

(** C5.  For every input image, under either promotion rule and whatever the
    background estimate, the foreground protector is the identity on the
    buffer the line suppressor hands to it: a cell it finds with alpha 0 holds
    either [[0, 0, 0, 0]], on which neither protection rule fires, or its
    input value, which restoring writes back unchanged. *)
Theorem protect_pass_identity (m : promotion) (data : image) (bg : bg_color) :
  protect_pass m data (height data) (width data) (suppressed data bg)
  = suppressed data bg.
Proof. apply protect_pass_id, kept_or_cleared_suppressed. Qed.

(** ** C10: the output has the shape of the input *)

(** C10.  For every input array of positive height [h] and width [w] the call
    returns an image, and that image has height [h], width [w] and, row by
    row, the lengths of the input. *)
Theorem output_dimensions (m : promotion) (data : image) (h w : nat) :
  wf_image h w data -> 0 < h -> 0 < w ->
  exists out, remove_grid_background m data = inr out
              /\ height out = h /\ width out = w /\ dims out = dims data.
Proof.
  intros Hwf Hh Hw.
  destruct (remove_grid_background_returns m data h w Hwf Hh Hw) as (corners & _ & ->).
  eexists. split; [done|].
  assert (Hd : dims (smooth_more (suppressed data (mean_color corners))) = dims data).
  { by rewrite dims_smooth_more, dims_suppressed. }
  split; [|split; [|done]].
  - rewrite (dims_height _ _ Hd). apply Hwf.
  - rewrite (dims_width _ _ Hd). by apply (wf_image_width h).
Qed.

Lemma output_dimensions_witness :
  exists out, remove_grid_background Legacy dark_dot = inr out
              /\ height out = 5 /\ width out = 5 /\ dims out = dims dark_dot.
Proof. apply (output_dimensions Legacy dark_dot 5 5); [apply wf_dark_dot | lia | lia]. Defined.

(** ** C9: an image of one colour *)

(** C9, as stated, fails: a single black pixel is an image of one colour and
    comes out opaque, the mask clearing only colours of mean brightness above
    180. *)
Lemma uniform_dark_image_stays_opaque : ~ spec_uniform_image.
Proof.
  intros H.
  specialize (H Legacy [[black]] 1 1 black [[black]]).
  assert (alpha black = 0%Z) as E; [|done].
  apply (H ltac:(solve_wf) ltac:(lia) ltac:(lia)) with (y := 0) (x := 0); [|done|done].
  intros [|y] [|x] d; simpl; try done.
  by intros [= <-].
Qed.

(** C9, amended.  For every input image of one colour whose mean brightness is
    above 180, the call returns an image of the same shape in which every
    pixel has alpha 0. *)
Theorem uniform_light_image_cleared (m : promotion) (data : image) (h w : nat)
    (c : pixel) :
  wf_image h w data -> 0 < h -> 0 < w ->
  (forall y x d, lookup_px data y x = Some d -> same_rgb d c) ->
  mean_gt c 180 = true ->
  exists out, remove_grid_background m data = inr out
              /\ dims out = dims data
              /\ forall y x q, lookup_px out y x = Some q -> alpha q = 0%Z.
Proof.
  intros Hwf Hh Hw Huni Hlight.
  destruct (remove_grid_background_returns m data h w Hwf Hh Hw)
    as ([[[tl tr] bl] br] & Ecorners & ->).
  eexists. split; [done|]. split.
  { by rewrite dims_smooth_more, dims_suppressed. }
  intros y x q Hq.
  assert (q = transparent) as ->; [|done].
  revert y x q Hq. apply all_transparent_smooth_more, all_transparent_suppressed.
  intros y x q. rewrite mask_pass_lookup.
  destruct (lookup_px data y x) as [d|] eqn:Ed; [|by destruct (_ && _)].
  destruct (wf_image_lookup_range _ _ _ _ _ _ Hwf Ed) as (Hy & Hx & _).
  assert (height data = h) as -> by apply Hwf.
  rewrite (wf_image_width _ _ _ Hwf Hh).
  apply Nat.ltb_lt in Hy, Hx. rewrite Hy, Hx.
  cbn [andb fmap option_fmap option_map]. intros [= <-].
  unfold mask_cell. rewrite (getpx_lookup _ _ _ _ Ed).
  destruct (corner_colors_lookup _ _ _ _ _ _ _ Ecorners) as (E1 & E2 & E3 & E4).
  change (Bg _ _ _) with (mean_color (tl, tr, bl, br)).
  rewrite (color_diff_uniform tl tr bl br c d) by eauto.
  rewrite (same_rgb_mean_gt d c) by eauto. by rewrite Hlight.
Qed.

Lemma uniform_light_image_cleared_witness :
  exists out, remove_grid_background NEP50 [[white; white]; [white; white]] = inr out
              /\ dims out = dims [[white; white]; [white; white]]
              /\ forall y x q, lookup_px out y x = Some q -> alpha q = 0%Z.
Proof.
  apply (uniform_light_image_cleared NEP50 [[white; white]; [white; white]] 2 2 white).
  - solve_wf.
  - lia.
  - lia.
  - intros [|[|y]] [|[|x]] d; simpl; intros [= <-]; done.
  - reflexivity.
Defined.

(** ** C7: corners of one colour *)

(** C7, as stated, fails: the corners of a single black pixel are of one
    colour, and the pixel stays opaque. *)
Lemma corner_invariance_fails_on_dark_corners : ~ spec_corner_invariance.
Proof.
  intros H.
  specialize (H Legacy [[black]] 1 1 black black black black black [[black]]).
  assert (alpha black = 0%Z) as E; [|done].
  refine (proj1 (H _ _ _ _ _ _ _ _ _ _ 0 0 black black _ _) _);
    try done; try lia; try solve_wf.
  intros [|y] [|x] d; simpl; try done.
  intros [= <-] Hne. by destruct Hne.
Qed.

(** The other rules that stand in the way of the sentence.  A pixel far from
    light-gray corners is cleared all the same when its mean brightness is
    above 240. *)
Example near_white_is_cleared_far_from_corners :
  color_diff_lt (mean_color (gray, gray, gray, gray)) white tolerance = false
  /\ forall m, exists out, remove_grid_background m white_on_gray = inr out
                           /\ lookup_px out 1 1 = Some transparent.
Proof. split; [reflexivity|]. intros m. eexists. split; by destruct m. Qed.

(** On an image of at least 5x5 the filter grades alpha on both sides of an
    edge: the dark pixel comes out at 112, its cleared neighbour at 13. *)
Example smoothing_grades_alpha :
  forall m, exists out, remove_grid_background m black_on_white_wide = inr out
                        /\ lookup_px out 2 2 = Some (Pixel 0 0 0 112)
                        /\ lookup_px out 2 3 = Some (Pixel 0 0 0 13).
Proof. intros m. eexists. split; [by destruct m|]. by destruct m. Qed.

(** C7, amended.  For every input image whose four corners are of one colour
    [c] of mean brightness above 180, which no pixel of another colour matches
    within the tolerance: in the buffer handed to the smoothing filter, every
    pixel of colour [c] is [[0, 0, 0, 0]], and every pixel of another colour
    whose mean brightness is at most 200 is as it was in the input. *)
Theorem corner_background_before_smoothing (m : promotion) (data : image)
    (h w : nat) (tl tr bl br c : pixel) :
  wf_image h w data -> 0 < h -> 0 < w ->
  corner_colors data (height data) (width data) = Some (tl, tr, bl, br) ->
  same_rgb tl c -> same_rgb tr c -> same_rgb bl c -> same_rgb br c ->
  mean_gt c 180 = true ->
  (forall y x d, lookup_px data y x = Some d -> ~ same_rgb d c ->
     color_diff_lt (mean_color (tl, tr, bl, br)) d tolerance = false) ->
  remove_grid_background m data
  = inr (smooth_more (classify m data (tl, tr, bl, br)))
  /\ forall y x d, lookup_px data y x = Some d ->
       (same_rgb d c ->
          lookup_px (classify m data (tl, tr, bl, br)) y x = Some transparent)
       /\ (~ same_rgb d c -> mean_gt d 200 = false ->
          lookup_px (classify m data (tl, tr, bl, br)) y x = Some d).
Proof.
  intros Hwf Hh Hw Ecorners Htl Htr Hbl Hbr Hlight Hfar.
  split; [unfold remove_grid_background; by rewrite Ecorners|].
  intros y x d Ed.
  destruct (wf_image_lookup_range _ _ _ _ _ _ Hwf Ed) as (Hy & Hx & _).
  assert (Hmask : lookup_px (mask_pass data (mean_color (tl, tr, bl, br))
                               (height data) (width data) data) y x
                  = Some (mask_cell data (mean_color (tl, tr, bl, br)) y x d)).
  { rewrite mask_pass_lookup, Ed.
    assert (height data = h) as -> by apply Hwf.
    rewrite (wf_image_width _ _ _ Hwf Hh).
    apply Nat.ltb_lt in Hy, Hx. by rewrite Hy, Hx. }
  rewrite classify_suppressed. unfold suppressed.
  unfold mask_cell in Hmask. rewrite (getpx_lookup _ _ _ _ Ed) in Hmask.
  split.
  - intros Hsame.
    rewrite (color_diff_uniform tl tr bl br c d) in Hmask by done.
    rewrite (same_rgb_mean_gt d c), Hlight in Hmask by done.
    apply col_pass_fixed, row_pass_fixed; done.
  - intros Hother Hdark.
    rewrite (Hfar y x d Ed Hother) in Hmask.
    assert (mean_gt d 240 = false) as E240.
    { destruct (mean_gt d 240) eqn:E; [|done].
      by rewrite (mean_gt_mono d 200 240) in Hdark by (done || lia). }
    rewrite E240 in Hmask.
    apply col_pass_fixed, row_pass_fixed; auto using clear_light_dark.
Qed.

Lemma corner_background_before_smoothing_witness :
  remove_grid_background Legacy black_on_white
  = inr (smooth_more (classify Legacy black_on_white (white, white, white, white)))
  /\ forall y x d, lookup_px black_on_white y x = Some d ->
       (same_rgb d white ->
          lookup_px (classify Legacy black_on_white (white, white, white, white)) y x
          = Some transparent)
       /\ (~ same_rgb d white -> mean_gt d 200 = false ->
          lookup_px (classify Legacy black_on_white (white, white, white, white)) y x
          = Some d).
Proof.
  apply (corner_background_before_smoothing Legacy black_on_white 3 3
           white white white white white).
  - solve_wf.
  - lia.
  - lia.
  - reflexivity.
  - done.
  - done.
  - done.
  - done.
  - reflexivity.
  - intros [|[|[|y]]] [|[|[|x]]] d; simpl; intros [= <-] Hne;
      first [reflexivity | by destruct Hne].
Defined.

(** ** C6: after the protector *)

(** C6.  For every input array and working buffer of one shape, a pixel that
    is opaque after the protector pass -- in particular one the pass has just
    restored -- never comes out of the rest of the pipeline, the smoothing
    filter, with alpha 0: its alpha is at least 112.  The protector is the
    last pass that stores alpha 0, so no cell is cleared after it. *)
Theorem restored_pixel_is_not_cleared (m : promotion) (data res : image)
    (h w y x : nat) (q : pixel) :
  wf_image h w data -> wf_image h w res ->
  lookup_px (protect_pass m data h w res) y x = Some q ->
  alpha q = 255%Z ->
  exists o, lookup_px (smooth_more (protect_pass m data h w res)) y x = Some o
            /\ (112 <= alpha o)%Z.
Proof.
  intros Hdata Hres Hq Ha.
  apply (smooth_more_keeps_opaque _ y x q); [|done|done].
  apply nonneg_alpha_protect_pass; by eapply wf_nonneg_alpha.
Qed.

(** A buffer whose only cell has alpha 0 and a blue cast, which the protector
    restores from the input. *)
Lemma restored_pixel_is_not_cleared_witness :
  lookup_px [[Pixel 0 0 255 0]] 0 0 = Some (Pixel 0 0 255 0)
  /\ lookup_px (protect_pass Legacy [[Pixel 0 0 255 255]] 1 1 [[Pixel 0 0 255 0]]) 0 0
     = Some (Pixel 0 0 255 255)
  /\ exists o,
       lookup_px (smooth_more
                    (protect_pass Legacy [[Pixel 0 0 255 255]] 1 1 [[Pixel 0 0 255 0]])) 0 0
       = Some o /\ (112 <= alpha o)%Z.
Proof.
  split; [reflexivity|]. split; [reflexivity|].
  apply (restored_pixel_is_not_cleared Legacy [[Pixel 0 0 255 255]] [[Pixel 0 0 255 0]]
           1 1 0 0 (Pixel 0 0 255 255)).
  - solve_wf.
  - solve_wf.
  - reflexivity.
  - reflexivity.
Defined.

(** ** C8: how the call can fail *)



(** ** C1: RGB of the pixels that come out opaque *)

(** Up to the smoothing filter the sentence holds: a cell of the buffer handed
    to the filter whose alpha is not 0 is the input cell. *)
Lemma visible_before_smoothing_is_input (m : promotion) (data : image)
    (corners : pixel * pixel * pixel * pixel) (y x : nat) (q : pixel) :
  lookup_px (classify m data corners) y x = Some q -> alpha q <> 0%Z ->
  lookup_px data y x = Some q.
Proof.
  rewrite classify_suppressed. intros Hq Ha.
  destruct (kept_or_cleared_suppressed data (mean_color corners) y x) as [E|E];
    rewrite E in Hq; [done|].
  destruct (lookup_px data y x); simpl in Hq; [|done].
  injection Hq as <-. by destruct Ha.
Qed.

(** C1 fails on the code.  On the black 5x5 image with a dark red dot no pass
    clears anything, and the filter, which runs over all four bands, turns
    the dot [(100, 0, 0, 255)] into [(44, 0, 0, 255)]: alpha 255 and another
    RGB than the input. *)
Theorem smoothing_blurs_rgb_of_opaque_pixel (m : promotion) :
  exists out,
    remove_grid_background m dark_dot = inr out
    /\ lookup_px dark_dot 2 2 = Some (Pixel 100 0 0 255)
    /\ lookup_px out 2 2 = Some (Pixel 44 0 0 255).
Proof. eexists. split; [by destruct m|]. by destruct m. Qed.

(** ** C2: what the protector restores *)

(** C2 fails on the code.  The blue-tinted pixel in the white 3x3 image meets
    both protection rules (blue 25 above red and green, channel spread 25)
    and is cleared by the colour-distance mask; the protector, which tests the
    stored [[0, 0, 0, 0]] and not the input colour, does not restore it, and
    the whole image comes out transparent. *)
Theorem protector_misses_cleared_pixel (m : promotion) :
  lookup_px tinted_dot 1 1 = Some blue_tinted
  /\ blue_dominant m blue_tinted = true
  /\ (15 <? spread blue_tinted)%Z = true
  /\ lookup_px (mask_pass tinted_dot (mean_color (white, white, white, white))
                  3 3 tinted_dot) 1 1 = Some transparent
  /\ remove_grid_background m tinted_dot
     = inr (replicate 3 (replicate 3 transparent)).
Proof. by destruct m. Qed.

(** ** C4: the line suppressor *)

Lemma exceeds_fraction_mono (c c' : Z) (n : nat) :
  (c <= c')%Z -> exceeds_fraction c n = true -> exceeds_fraction c' n = true.
Proof. unfold exceeds_fraction. intros Hc H%Z.ltb_lt. apply Z.ltb_lt. lia. Qed.

Lemma exceeds_fraction_pos (c : Z) (n : nat) :
  exceeds_fraction c n = true -> (0 < c)%Z.
Proof. unfold exceeds_fraction. intros H%Z.ltb_lt. lia. Qed.

(** A run that starts where the scan stands carries the count on. *)
Lemma scan_hits_head (n : nat) (run suf : list pixel) (count : Z) :
  Forall (fun p => light_opaque p = true) run -> run <> [] ->
  exceeds_fraction (count + Z.of_nat (length run)) n = true ->
  scan_hits n (run ++ suf) count = true.
Proof.
  intros Hrun. revert count.
  induction Hrun as [|p run Hp Hrun IH]; intros count Hne Hex; [done|].
  simpl. rewrite Hp.
  destruct (exceeds_fraction (count + 1) n) eqn:E; [done|]. simpl.
  apply IH.
  - intros ->. change (count + Z.of_nat (length [p]))%Z with (count + 1)%Z in Hex.
    congruence.
  - simpl length in Hex. by replace (count + 1 + Z.of_nat (length run))%Z
      with (count + Z.of_nat (S (length run)))%Z by lia.
Qed.

Lemma scan_hits_run (n : nat) (pre run suf : list pixel) (count : Z) :
  (0 <= count)%Z ->
  Forall (fun p => light_opaque p = true) run ->
  exceeds_fraction (Z.of_nat (length run)) n = true ->
  scan_hits n (pre ++ run ++ suf) count = true.
Proof.
  intros Hc Hrun Hex. revert count Hc.
  induction pre as [|p pre IH]; intros count Hc.
  - apply (scan_hits_head n run suf); [done| |].
    + intros ->. apply exceeds_fraction_pos in Hex. simpl in Hex. lia.
    + apply (exceeds_fraction_mono (Z.of_nat (length run))); [lia|done].
  - change ((p :: pre) ++ run ++ suf) with (p :: (pre ++ run ++ suf)).
    cbn [scan_hits].
    destruct (exceeds_fraction (if light_opaque p then _ else _) n); [done|].
    cbn [orb]. apply IH. destruct (light_opaque p); lia.
Qed.

Lemma scan_hits_inv (n : nat) (ps : list pixel) (count : Z) :
  scan_hits n ps count = true ->
  exists pre run suf,
    ps = pre ++ run ++ suf
    /\ Forall (fun p => light_opaque p = true) run
    /\ ((pre = [] /\ exceeds_fraction (count + Z.of_nat (length run)) n = true)
        \/ exceeds_fraction (Z.of_nat (length run)) n = true).
Proof.
  revert count. induction ps as [|p ps IH]; intros count; [done|].
  simpl. destruct (light_opaque p) eqn:Hp.
  - destruct (exceeds_fraction (count + 1) n) eqn:E; simpl.
    + intros _. exists [], [p], ps. split; [done|]. split; [by repeat constructor|].
      left. by split.
    + intros (pre & run & suf & -> & Hrun & Hcase)%IH.
      destruct Hcase as [[-> Hex]|Hex].
      * exists [], (p :: run), suf. split; [done|]. split; [by constructor|].
        left. split; [done|]. simpl length.
        by replace (count + Z.of_nat (S (length run)))%Z
          with (count + 1 + Z.of_nat (length run))%Z by lia.
      * exists (p :: pre), run, suf. split; [done|]. split; [done|]. by right.
  - destruct (exceeds_fraction 0 n) eqn:E; simpl.
    { apply exceeds_fraction_pos in E. lia. }
    intros (pre & run & suf & -> & Hrun & Hcase)%IH.
    exists (p :: pre), run, suf. split; [done|]. split; [done|]. right.
    destruct Hcase as [[_ Hex]|Hex]; [|done].
    by rewrite Z.add_0_l in Hex.
Qed.

(** The scan reaches its [break] exactly when the pixels hold such a run. *)
Lemma scan_hits_line_found (n : nat) (ps : list pixel) :
  scan_hits n ps 0 = true <-> line_found n ps.
Proof.
  split.
  - intros (pre & run & suf & -> & Hrun & Hcase)%scan_hits_inv.
    exists (length run). split.
    + destruct Hcase as [[_ Hex]|Hex]; [|done]. by rewrite Z.add_0_l in Hex.
    + by exists pre, run, suf.
  - intros (k & Hex & pre & run & suf & -> & <- & Hrun).
    by apply scan_hits_run.
Qed.

(** C4, as stated, fails: in a row of five that opens with a cleared cell
    followed by three light pixels, four pixels in a row are transparent or
    light, more than 0.6 of the width, and the row pass clears nothing: a
    transparent pixel sets the count back to 0. *)
Lemma transparent_pixel_resets_count : ~ spec_line_suppressor.
Proof.
  intros H.
  specialize (H 1 5 broken_line 0 1 light_gray eq_refl ltac:(lia) ltac:(lia)).
  assert (lookup_px (row_pass 1 5 broken_line) 0 1 = Some light_gray) as E
    by reflexivity.
  rewrite H in E; [done|].
  exists 4. split; [reflexivity|].
  exists [], [transparent; light_gray; light_gray; light_gray], [black].
  split; [reflexivity|]. split; [reflexivity|]. by repeat constructor.
Qed.

(** C4, amended.  In the row pass the running count goes up by one on every
    pixel of mean brightness above 220 that is not transparent (alpha above
    0) and back to 0 on any other pixel, a transparent one included; so the
    row is cleared -- every pixel of the row of mean brightness above 200
    becomes [[0, 0, 0, 0]] -- exactly when it holds more than 0.6 of the
    width of such pixels in a row, and is left as it is otherwise.  The column
    pass does the same with columns and 0.6 of the height. *)
Theorem line_suppressor_clears_long_runs (h w : nat) (im : image) (y x : nat)
    (p : pixel) :
  lookup_px im y x = Some p -> y < h -> x < w ->
  (line_found w (row_cells im y w) ->
     lookup_px (row_pass h w im) y x = Some (clear_light p))
  /\ (~ line_found w (row_cells im y w) ->
     lookup_px (row_pass h w im) y x = Some p)
  /\ (line_found h (col_cells im x h) ->
     lookup_px (col_pass h w im) y x = Some (clear_light p))
  /\ (~ line_found h (col_cells im x h) ->
     lookup_px (col_pass h w im) y x = Some p).
Proof.
  intros Hp Hy%Nat.ltb_lt Hx%Nat.ltb_lt.
  rewrite row_pass_lookup, col_pass_lookup, Hp, Hy, Hx. simpl.
  repeat split.
  - intros Hl%scan_hits_line_found. by rewrite Hl.
  - intros Hl. destruct (scan_hits w _ 0) eqn:E; [|done].
    by apply scan_hits_line_found in E.
  - intros Hl%scan_hits_line_found. by rewrite Hl.
  - intros Hl. destruct (scan_hits h _ 0) eqn:E; [|done].
    by apply scan_hits_line_found in E.
Qed.

Lemma line_suppressor_clears_long_runs_witness :
  lookup_px (row_pass 1 5 long_line) 0 0 = Some transparent
  /\ lookup_px (col_pass 1 5 long_line) 0 4 = Some black.
Proof.
  split.
  - apply (proj1 (line_suppressor_clears_long_runs 1 5 long_line 0 0 light_gray
                    eq_refl ltac:(lia) ltac:(lia))).
    exists 4. split; [reflexivity|].
    exists [], [light_gray; light_gray; light_gray; light_gray], [black].
    split; [reflexivity|]. split; [reflexivity|]. by repeat constructor.
  - apply (proj2 (proj2 (proj2 (line_suppressor_clears_long_runs 1 5 long_line 0 4 black
                                  eq_refl ltac:(lia) ltac:(lia))))).
    intros H%scan_hits_line_found. discriminate H.
Defined.


(** * Further properties of [remove_grid_background] *)

(** ** The NumPy promotion rule *)

(** X1.  The result of the call does not depend on the NumPy version: with
    [r + 10] computed as an [int64] or as a wrapping [uint8], the call fails
    or returns the same image. *)
Theorem promotion_rule_is_irrelevant (data : image) :
  remove_grid_background Legacy data = remove_grid_background NEP50 data.
Proof.
  unfold remove_grid_background.
  destruct (corner_colors _ _ _); [|done]. by rewrite !classify_suppressed.
Qed.

(** ** What reaches the smoothing filter *)

(** X2.  Whatever the image and the corners, each cell of the buffer handed to
    the smoothing filter holds either the input pixel, RGB and alpha
    untouched, or [[0, 0, 0, 0]]; no pass stores anything else. *)
Theorem buffer_cells_kept_or_cleared (m : promotion) (data : image)
    (corners : pixel * pixel * pixel * pixel) (y x : nat) :
  lookup_px (classify m data corners) y x = lookup_px data y x
  \/ lookup_px (classify m data corners) y x
     = (fun _ => transparent) <$> lookup_px data y x.
Proof. rewrite classify_suppressed. apply kept_or_cleared_suppressed. Qed.

(** X3.  A pixel whose mean brightness is at most 180 reaches the smoothing
    filter unchanged, whatever the corners and the rest of the image: the
    mask clears only above 180, the line suppressor only above 200. *)
Theorem dark_pixel_reaches_filter (m : promotion) (data : image)
    (corners : pixel * pixel * pixel * pixel) (y x : nat) (d : pixel) :
  lookup_px data y x = Some d -> mean_gt d 180 = false ->
  lookup_px (classify m data corners) y x = Some d.
Proof.
  intros Ed Hdark. rewrite classify_suppressed. unfold suppressed.
  assert (mean_gt d 200 = false) as H200.
  { destruct (mean_gt d 200) eqn:E; [|done].
    by rewrite (mean_gt_mono d 180 200) in Hdark by (done || lia). }
  assert (mean_gt d 240 = false) as H240.
  { destruct (mean_gt d 240) eqn:E; [|done].
    by rewrite (mean_gt_mono d 180 240) in Hdark by (done || lia). }
  apply col_pass_fixed, row_pass_fixed; auto using clear_light_dark.
  rewrite mask_pass_lookup, Ed. destruct (_ && _); [|done]. simpl. f_equal.
  unfold mask_cell. rewrite (getpx_lookup _ _ _ _ Ed), Hdark, H240.
  by destruct (color_diff_lt _ _ _).
Qed.

Lemma dark_pixel_reaches_filter_witness :
  lookup_px (classify Legacy black_on_white (white, white, white, white)) 1 1
  = Some black.
Proof.
  apply (dark_pixel_reaches_filter Legacy black_on_white (white, white, white, white)
           1 1 black); reflexivity.
Defined.

(** X4.  A pixel whose mean brightness is above 240 is [[0, 0, 0, 0]] in the
    buffer handed to the smoothing filter, whatever the corners: within the
    tolerance it passes the test on 180, outside it the test on 240. *)
Theorem near_white_pixel_is_cleared (m : promotion) (data : image)
    (corners : pixel * pixel * pixel * pixel) (h w y x : nat) (d : pixel) :
  wf_image h w data -> lookup_px data y x = Some d -> mean_gt d 240 = true ->
  lookup_px (classify m data corners) y x = Some transparent.
Proof.
  intros Hwf Ed Hlight. rewrite classify_suppressed. unfold suppressed.
  destruct (wf_image_lookup_range _ _ _ _ _ _ Hwf Ed) as (Hy & Hx & _).
  apply col_pass_fixed, row_pass_fixed; try done.
  rewrite mask_pass_lookup, Ed.
  assert (height data = h) as -> by apply Hwf.
  rewrite (wf_image_width h w data Hwf) by lia.
  apply Nat.ltb_lt in Hy, Hx. rewrite Hy, Hx. simpl. f_equal.
  unfold mask_cell. rewrite (getpx_lookup _ _ _ _ Ed), Hlight.
  by rewrite (mean_gt_mono d 180 240), Tauto.if_same by (done || lia).
Qed.

Lemma near_white_pixel_is_cleared_witness :
  lookup_px (classify NEP50 white_on_gray (gray, gray, gray, gray)) 1 1
  = Some transparent.
Proof.
  apply (near_white_pixel_is_cleared NEP50 white_on_gray (gray, gray, gray, gray)
           3 3 1 1 white); [solve_wf | reflexivity | reflexivity].
Defined.

(** ** The line suppressor *)

Lemma clear_light_idem (p : pixel) : clear_light (clear_light p) = clear_light p.
Proof. unfold clear_light. by destruct (mean_gt p 200) eqn:E; [|rewrite E]. Qed.

Lemma light_opaque_clear_light (p : pixel) :
  light_opaque p = true -> clear_light p = transparent.
Proof.
  unfold light_opaque, clear_light. intros [H _]%andb_true_iff.
  by rewrite (mean_gt_mono p 200 220) by (done || lia).
Qed.

Lemma row_cells_agree (a b : image) (y w : nat) :
  (forall x, x < w -> lookup_px a y x = lookup_px b y x) ->
  row_cells a y w = row_cells b y w.
Proof.
  intros H. unfold row_cells. apply list_fmap_ext. intros i x Hx.
  apply lookup_seq in Hx as [-> Hi]. apply getpx_agree, H. lia.
Qed.

Lemma col_cells_agree (a b : image) (x h : nat) :
  (forall y, y < h -> lookup_px a y x = lookup_px b y x) ->
  col_cells a x h = col_cells b x h.
Proof.
  intros H. unfold col_cells. apply list_fmap_ext. intros i y Hy.
  apply lookup_seq in Hy as [-> Hi]. apply getpx_agree, H. lia.
Qed.

(** X5.  Each of the two suppressor passes is idempotent: a row (a column)
    that was cleared holds no pixel above 200 any more, and one that was not
    is as it was, so running the pass again changes nothing. *)
Theorem suppressor_passes_idempotent (h w : nat) (im : image) :
  row_pass h w (row_pass h w im) = row_pass h w im
  /\ col_pass h w (col_pass h w im) = col_pass h w im.
Proof.
  split.
  - apply image_eq; [apply dims_length, dims_row_pass|].
    intros y x. rewrite (row_pass_lookup h w (row_pass h w im)).
    destruct ((y <? h) && (x <? w)) eqn:Ein; [|done]. simpl.
    destruct (scan_hits w (row_cells im y w) 0) eqn:Ehit.
    + rewrite row_pass_lookup, Ein, Ehit. simpl.
      destruct (scan_hits w (row_cells (row_pass h w im) y w) 0); [|done].
      destruct (lookup_px im y x); simpl; by rewrite ?clear_light_idem.
    + rewrite (row_cells_agree (row_pass h w im) im), Ehit; [done|].
      intros x' _. rewrite row_pass_lookup, Ehit. by rewrite andb_false_r.
  - apply image_eq; [apply dims_length, dims_col_pass|].
    intros y x. rewrite (col_pass_lookup h w (col_pass h w im)).
    destruct ((y <? h) && (x <? w)) eqn:Ein; [|done]. simpl.
    destruct (scan_hits h (col_cells im x h) 0) eqn:Ehit.
    + rewrite col_pass_lookup, Ein, Ehit. simpl.
      destruct (scan_hits h (col_cells (col_pass h w im) x h) 0); [|done].
      destruct (lookup_px im y x); simpl; by rewrite ?clear_light_idem.
    + rewrite (col_cells_agree (col_pass h w im) im), Ehit; [done|].
      intros y' _. rewrite col_pass_lookup, Ehit. by rewrite andb_false_r.
Qed.

(** X6.  In an image of a single row or a single column, every pixel of mean
    brightness above 220 and alpha above 0 comes out as [[0, 0, 0, 0]],
    whatever the corners: a run of one pixel is already more than 0.6 of a
    height or width of 1. *)
Theorem single_line_image_loses_light_pixels (m : promotion) (data : image)
    (h w y x : nat) (d : pixel) :
  wf_image h w data -> h = 1 \/ w = 1 ->
  lookup_px data y x = Some d -> light_opaque d = true ->
  exists out, remove_grid_background m data = inr out
              /\ lookup_px out y x = Some transparent.
Proof.
  intros Hwf Hone Ed Hlight.
  destruct (wf_image_lookup_range _ _ _ _ _ _ Hwf Ed) as (Hy & Hx & _).
  destruct (remove_grid_background_returns m data h w Hwf) as (c & _ & ->); [lia..|].
  eexists. split; [done|].
  assert (Hh : height data = h) by apply Hwf.
  assert (Hw : width data = w) by (apply (wf_image_width h); [done|lia]).
  rewrite smooth_more_small.
  2:{ rewrite <- (dims_width _ _ (dims_suppressed data (mean_color c))),
        <- (dims_height _ _ (dims_suppressed data (mean_color c))) in *. lia. }
  unfold suppressed. rewrite Hh, Hw.
  set (r1 := mask_pass data (mean_color c) h w data).
  assert (E1 : lookup_px r1 y x = Some d \/ lookup_px r1 y x = Some transparent).
  { destruct (kept_or_cleared_mask data (mean_color c) h w data
                (kept_or_cleared_refl data) y x) as [E|E];
      fold r1 in E; rewrite E, Ed; auto. }
  pose proof (light_opaque_clear_light d Hlight) as Hclear.
  apply Nat.ltb_lt in Hy, Hx.
  destruct Hone as [-> | ->].
  - (* one row: the column pass clears the pixel *)
    assert (y = 0) as -> by (apply Nat.ltb_lt in Hy; lia).
    assert (E2 : lookup_px (row_pass 1 w r1) 0 x = Some d
                 \/ lookup_px (row_pass 1 w r1) 0 x = Some transparent).
    { rewrite row_pass_lookup. destruct (_ && _); [|done].
      destruct E1 as [-> | ->]; simpl; rewrite ?Hclear; auto. }
    destruct E2 as [E2|E2]; [|by apply col_pass_fixed].
    rewrite col_pass_lookup, E2, Hx. unfold col_cells. simpl.
    rewrite (getpx_lookup _ _ _ _ E2), Hlight. simpl. by rewrite Hclear.
  - (* one column: the row pass clears the pixel *)
    assert (x = 0) as -> by (apply Nat.ltb_lt in Hx; lia).
    apply col_pass_fixed; [done|].
    destruct E1 as [E1|E1]; [|by apply row_pass_fixed].
    rewrite row_pass_lookup, E1, Hy. unfold row_cells. simpl.
    rewrite (getpx_lookup _ _ _ _ E1), Hlight. simpl. by rewrite Hclear.
Qed.

Lemma single_line_image_loses_light_pixels_witness :
  exists out, remove_grid_background Legacy [[black; light_gray; black]] = inr out
              /\ lookup_px out 0 1 = Some transparent.
Proof.
  apply (single_line_image_loses_light_pixels Legacy [[black; light_gray; black]]
           1 3 0 1 light_gray); [solve_wf | by left | reflexivity | reflexivity].
Defined.

(** ** Through the smoothing filter *)

Lemma weighted_sum_flat (band : pixel -> Z) (im : image) (y x : nat) (c : Z) :
  (forall dy dx, dy <= 4 -> dx <= 4 ->
     band (getpx im (y + dy - 2) (x + dx - 2)) = c) ->
  weighted_sum band im y x = (100 * c)%Z.
Proof.
  intros H. rewrite weighted_sum_unfold. cbv beta zeta.
  rewrite !H by lia. lia.
Qed.

Lemma filter_band_flat (band : pixel -> Z) (im : image) (y x : nat) (c : Z) :
  uint8 c ->
  (forall dy dx, dy <= 4 -> dx <= 4 ->
     band (getpx im (y + dy - 2) (x + dx - 2)) = c) ->
  filter_band band im y x = c.
Proof.
  intros Hc H. unfold filter_band. rewrite (weighted_sum_flat band im y x c H).
  replace ((100 * c + 50) / 100)%Z with c
    by (apply (Z.div_unique _ _ _ 50); lia).
  unfold clip8, uint8 in *.
  destruct (Z.leb_spec c 0); [lia|]. destruct (Z.leb_spec 255 c); lia.
Qed.

Lemma interior_range (h w y x : nat) :
  interior h w y x = true -> 2 <= y /\ y + 2 < h /\ 2 <= x /\ x + 2 < w.
Proof.
  unfold interior. rewrite !andb_true_iff, !Nat.leb_le, !Nat.ltb_lt. tauto.
Qed.

(** X7.  A dark flat patch survives the whole call exactly: when a pixel of
    mean brightness at most 180 and every pixel of the image within two rows
    and two columns of it have one and the same value, the output holds that
    value at that place, RGB and alpha. *)
Theorem flat_dark_patch_is_preserved (m : promotion) (data : image)
    (h w y x : nat) (d : pixel) :
  wf_image h w data ->
  lookup_px data y x = Some d -> mean_gt d 180 = false ->
  (forall y' x' p, y <= y' + 2 -> y' <= y + 2 -> x <= x' + 2 -> x' <= x + 2 ->
     lookup_px data y' x' = Some p -> p = d) ->
  exists out, remove_grid_background m data = inr out
              /\ lookup_px out y x = Some d.
Proof.
  intros Hwf Ed Hdark Hflat.
  destruct (wf_image_lookup_range _ _ _ _ _ _ Hwf Ed) as (Hy & Hx & Hvalid).
  destruct (remove_grid_background_returns m data h w Hwf) as (c & _ & ->); [lia..|].
  eexists. split; [done|].
  rewrite <- (classify_suppressed m data c).
  pose proof (dark_pixel_reaches_filter m data c y x d Ed Hdark) as Ecell.
  rewrite smooth_more_lookup, Ecell.
  destruct (interior _ _ _ _) eqn:Eint; [|done]. simpl. f_equal.
  apply interior_range in Eint.
  rewrite (dims_height _ _ (dims_classify m data c)),
    (dims_width _ _ (dims_classify m data c)) in Eint.
  assert (height data = h) as Hh by apply Hwf.
  rewrite Hh, (wf_image_width h w data Hwf) in Eint by lia.
  assert (Hnear : forall dy dx, dy <= 4 -> dx <= 4 ->
            getpx (classify m data c) (y + dy - 2) (x + dx - 2) = d).
  { intros dy dx Hdy Hdx.
    destruct (wf_image_lookup h w data (y + dy - 2) (x + dx - 2) Hwf)
      as (p & Ep & _); [lia..|].
    assert (p = d) as -> by (apply (Hflat (y + dy - 2) (x + dx - 2)); [lia..|done]).
    apply getpx_lookup. by apply dark_pixel_reaches_filter. }
  destruct Hvalid as (Hr & Hg & Hb & Ha).
  unfold smoothed_cell.
  rewrite (filter_band_flat red _ y x (red d)), (filter_band_flat green _ y x (green d)),
    (filter_band_flat blue _ y x (blue d)), (filter_band_flat alpha _ y x (alpha d));
    try done; try (intros dy dx Hdy Hdx; by rewrite Hnear).
  by destruct d.
Qed.

Lemma flat_dark_patch_is_preserved_witness :
  exists out, remove_grid_background Legacy [[black; black]; [black; black]] = inr out
              /\ lookup_px out 1 0 = Some black.
Proof.
  apply (flat_dark_patch_is_preserved Legacy [[black; black]; [black; black]] 2 2 1 0 black).
  - solve_wf.
  - reflexivity.
  - reflexivity.
  - intros [|[|y']] [|[|x']] p _ _ _ _; simpl; intros [= <-]; reflexivity.
Defined.

(** X8.  An input that is transparent everywhere comes out transparent
    everywhere: no pass raises an alpha, and the filter averages zeros. *)
Theorem transparent_input_stays_transparent (m : promotion) (data : image)
    (h w : nat) :
  wf_image h w data -> 0 < h -> 0 < w ->
  (forall y x d, lookup_px data y x = Some d -> alpha d = 0%Z) ->
  exists out, remove_grid_background m data = inr out
              /\ forall y x q, lookup_px out y x = Some q -> alpha q = 0%Z.
Proof.
  intros Hwf Hh Hw Hzero.
  destruct (remove_grid_background_returns m data h w Hwf Hh Hw) as (c & _ & ->).
  eexists. split; [done|].
  set (buf := suppressed data (mean_color c)).
  assert (Hbuf : forall y x q, lookup_px buf y x = Some q -> alpha q = 0%Z).
  { intros y x q Hq.
    destruct (kept_or_cleared_suppressed data (mean_color c) y x) as [E|E];
      fold buf in E; rewrite E in Hq.
    - by apply (Hzero y x).
    - destruct (lookup_px data y x); simpl in Hq; [|done]. by injection Hq as <-. }
  assert (Hget : forall y x, alpha (getpx buf y x) = 0%Z).
  { intros y x. unfold getpx. destruct (lookup_px buf y x) eqn:E; simpl; [|done].
    by apply (Hbuf y x). }
  intros y x q. rewrite smooth_more_lookup.
  destruct (interior _ _ _ _); [|apply Hbuf].
  destruct (lookup_px buf y x); simpl; [|done]. intros [= <-]. simpl.
  unfold filter_band. by rewrite (weighted_sum_zero alpha buf y x Hget).
Qed.

Lemma transparent_input_stays_transparent_witness :
  exists out,
    remove_grid_background NEP50 [[Pixel 10 20 30 0; Pixel 250 250 250 0]] = inr out
    /\ forall y x q, lookup_px out y x = Some q -> alpha q = 0%Z.
Proof.
  apply (transparent_input_stays_transparent NEP50
           [[Pixel 10 20 30 0; Pixel 250 250 250 0]] 1 2).
  - solve_wf.
  - lia.
  - lia.
  - intros [|y] [|[|x]] d; simpl; intros [= <-]; reflexivity.
Defined.

Lemma wf_image_from_cells (h w : nat) (data im : image) :
  wf_image h w data -> dims im = dims data ->
  (forall y x q, lookup_px im y x = Some q -> valid_pixel q) ->
  wf_image h w im.
Proof.
  intros [Hlen Hrows] Hdims Hcells. split.
  - by rewrite (dims_length _ _ Hdims).
  - apply Forall_lookup. intros y row Hrow. split.
    + assert (dims im !! y = Some (length row)) as E
        by (unfold dims; by rewrite list_lookup_fmap, Hrow).
      rewrite Hdims in E. unfold dims in E. rewrite list_lookup_fmap in E.
      destruct (data !! y) as [row'|] eqn:Erow'; simpl in E; [|done].
      injection E as <-. by destruct (Forall_lookup_1 _ _ _ _ Hrows Erow').
    + apply Forall_lookup. intros x q Hq. apply (Hcells y x).
      unfold lookup_px. by rewrite Hrow.
Qed.

(** X9.  On every array of positive height and width whose channels are all
    within 0..255 the call returns an array of the same height and width
    whose channels are all within 0..255. *)
Theorem output_is_valid_array (m : promotion) (data : image) (h w : nat) :
  wf_image h w data -> 0 < h -> 0 < w ->
  exists out, remove_grid_background m data = inr out /\ wf_image h w out.
Proof.
  intros Hwf Hh Hw.
  destruct (remove_grid_background_returns m data h w Hwf Hh Hw) as (c & _ & ->).
  eexists. split; [done|].
  apply (wf_image_from_cells h w data); [done| |].
  { by rewrite dims_smooth_more, dims_suppressed. }
  intros y x q. rewrite smooth_more_lookup.
  destruct (interior _ _ _ _).
  - destruct (lookup_px _ y x); simpl; [|done]. intros [= <-].
    repeat split; apply clip8_uint8.
  - intros Hq.
    destruct (kept_or_cleared_suppressed data (mean_color c) y x) as [E|E];
      rewrite E in Hq.
    + by destruct (wf_image_lookup_range _ _ _ _ _ _ Hwf Hq) as (_ & _ & ?).
    + destruct (lookup_px data y x); simpl in Hq; [|done]. injection Hq as <-.
      unfold valid_pixel, uint8. simpl. lia.
Qed.

Lemma output_is_valid_array_witness :
  exists out, remove_grid_background Legacy tinted_dot = inr out /\ wf_image 3 3 out.
Proof.
  apply (output_is_valid_array Legacy tinted_dot 3 3); [apply wf_tinted_dot | lia | lia].
Defined.

(** * Properties of [remove_background] (scripts/make-transparent.py) *)

Lemma putdata_fmap (f : pixel -> pixel) (img : image) :
  putdata img (f <$> getdata img) = map_image f img.
Proof.
  unfold getdata, map_image. induction img as [|row rows IH]; [done|].
  simpl. rewrite fmap_app.
  rewrite take_app_length' by (by rewrite length_fmap).
  rewrite drop_ge by (rewrite length_app, length_fmap; lia).
  rewrite drop_app_length' by (by rewrite length_fmap).
  by rewrite app_nil_r, IH.
Qed.

Lemma lookup_px_fmap (f : pixel -> pixel) (img : image) (y x : nat) :
  lookup_px (map_image f img) y x = f <$> lookup_px img y x.
Proof.
  unfold lookup_px, map_image. rewrite list_lookup_fmap.
  destruct (img !! y); simpl; [|done]. by rewrite list_lookup_fmap.
Qed.

Lemma dims_fmap (f : pixel -> pixel) (img : image) :
  dims (map_image f img) = dims img.
Proof.
  unfold dims, map_image. rewrite <- list_fmap_compose. apply list_fmap_ext.
  intros _ row _. simpl. by rewrite length_fmap.
Qed.

Lemma remove_background_fmap (img : image) (fuzz : Z) (corners : list pixel) :
  corner_pixels img (width img) (height img) = Some corners ->
  remove_background img fuzz = inr (map_image (box_cell corners fuzz) img).
Proof.
  intros E. unfold remove_background. rewrite E. cbv zeta. f_equal.
  apply (putdata_fmap (box_cell corners fuzz)).
Qed.

Lemma corner_pixels_wf (h w : nat) (img : image) :
  wf_image h w img -> 0 < h -> 0 < w ->
  exists c1 c2 c3 c4,
    corner_pixels img (width img) (height img) = Some [c1; c2; c3; c4]
    /\ lookup_px img 0 0 = Some c1 /\ lookup_px img 0 (w - 1) = Some c2
    /\ lookup_px img (h - 1) 0 = Some c3 /\ lookup_px img (h - 1) (w - 1) = Some c4.
Proof.
  intros Hwf Hh Hw.
  rewrite (wf_image_width _ _ _ Hwf Hh).
  assert (height img = h) as -> by apply Hwf.
  destruct (wf_image_lookup h w img 0 0 Hwf) as (c1 & E1 & _); [lia..|].
  destruct (wf_image_lookup h w img 0 (w - 1) Hwf) as (c2 & E2 & _); [lia..|].
  destruct (wf_image_lookup h w img (h - 1) 0 Hwf) as (c3 & E3 & _); [lia..|].
  destruct (wf_image_lookup h w img (h - 1) (w - 1) Hwf) as (c4 & E4 & _); [lia..|].
  exists c1, c2, c3, c4. unfold corner_pixels, getpixel.
  rewrite E1, E2, E3, E4. done.
Qed.

(** X10.  On every image of positive height and width the routine returns an
    image of the same shape in which each pixel is, at its own place, what
    the box test makes of the input pixel: [(255, 255, 255, 0)] when each of
    its three colour channels is less than [fuzz] away from the floored mean
    of the four corners, and the input pixel otherwise. *)
Theorem remove_background_cells (img : image) (fuzz : Z) (h w : nat) :
  wf_image h w img -> 0 < h -> 0 < w ->
  exists corners out,
    corner_pixels img (width img) (height img) = Some corners
    /\ remove_background img fuzz = inr out
    /\ dims out = dims img
    /\ forall y x, lookup_px out y x = box_cell corners fuzz <$> lookup_px img y x.
Proof.
  intros Hwf Hh Hw.
  destruct (corner_pixels_wf h w img Hwf Hh Hw) as (c1 & c2 & c3 & c4 & E & _).
  exists [c1; c2; c3; c4]. eexists. split; [done|].
  split; [by apply remove_background_fmap|].
  split; [apply dims_fmap|]. intros y x. apply lookup_px_fmap.
Qed.

Lemma remove_background_cells_witness :
  exists corners out,
    corner_pixels tinted_dot (width tinted_dot) (height tinted_dot) = Some corners
    /\ remove_background tinted_dot 30 = inr out
    /\ dims out = dims tinted_dot
    /\ forall y x, lookup_px out y x = box_cell corners 30 <$> lookup_px tinted_dot y x.
Proof.
  apply (remove_background_cells tinted_dot 30 3 3); [apply wf_tinted_dot | lia | lia].
Defined.

Lemma map_image_id (f : pixel -> pixel) (img : image) :
  (forall p, f p = p) -> map_image f img = img.
Proof.
  intros Hf. unfold map_image. induction img as [|row rows IH]; [done|].
  rewrite fmap_cons, IH. f_equal.
  induction row as [|p row IHrow]; [done|]. by rewrite fmap_cons, Hf, IHrow.
Qed.

Lemma similar_mono (bg_r bg_g bg_b fuzz fuzz' : Z) (item : pixel) :
  (fuzz <= fuzz')%Z -> similar bg_r bg_g bg_b fuzz item = true ->
  similar bg_r bg_g bg_b fuzz' item = true.
Proof.
  unfold similar. rewrite !andb_true_iff, !Z.ltb_lt. lia.
Qed.

Lemma corner_average_uniform (band : pixel -> Z) (c1 c2 c3 c4 : pixel) (v : Z) :
  band c1 = v -> band c2 = v -> band c3 = v -> band c4 = v ->
  corner_average band [c1; c2; c3; c4] = v.
Proof.
  intros H1 H2 H3 H4. unfold corner_average.
  cbn [fmap list_fmap sum_Z foldr]. rewrite H1, H2, H3, H4.
  symmetry. apply (Z.div_unique _ _ _ 0); lia.
Qed.

Lemma corner_average_uint8 (band : pixel -> Z) (c1 c2 c3 c4 : pixel) :
  uint8 (band c1) -> uint8 (band c2) -> uint8 (band c3) -> uint8 (band c4) ->
  uint8 (corner_average band [c1; c2; c3; c4]).
Proof.
  unfold uint8, corner_average. cbn [fmap list_fmap sum_Z foldr]. intros ????. split.
  - apply Z.div_pos; lia.
  - apply Z.div_le_upper_bound; lia.
Qed.

(** X11.  An image of one colour, whatever the colour, comes out as
    [(255, 255, 255, 0)] everywhere as soon as [fuzz] is positive: unlike
    [remove_grid_background], this routine has no brightness test. *)
Theorem uniform_image_cleared_by_box (img : image) (fuzz : Z) (h w : nat)
    (c : pixel) :
  wf_image h w img -> 0 < h -> 0 < w ->
  (forall y x d, lookup_px img y x = Some d -> same_rgb d c) ->
  (0 < fuzz)%Z ->
  exists out, remove_background img fuzz = inr out
              /\ dims out = dims img
              /\ forall y x q, lookup_px out y x = Some q -> q = cleared_white.
Proof.
  intros Hwf Hh Hw Huni Hfuzz.
  destruct (corner_pixels_wf h w img Hwf Hh Hw)
    as (c1 & c2 & c3 & c4 & E & E1 & E2 & E3 & E4).
  rewrite (remove_background_fmap img fuzz _ E).
  eexists. split; [done|]. split; [apply dims_fmap|].
  intros y x q. rewrite lookup_px_fmap.
  destruct (lookup_px img y x) as [d|] eqn:Ed; simpl; [|done]. intros [= <-].
  destruct (Huni _ _ _ E1) as (?&?&?), (Huni _ _ _ E2) as (?&?&?),
    (Huni _ _ _ E3) as (?&?&?), (Huni _ _ _ E4) as (?&?&?),
    (Huni _ _ _ Ed) as (Hr & Hg & Hb).
  unfold box_cell.
  rewrite (corner_average_uniform red c1 c2 c3 c4 (red c)),
    (corner_average_uniform green c1 c2 c3 c4 (green c)),
    (corner_average_uniform blue c1 c2 c3 c4 (blue c)) by done.
  unfold similar. rewrite Hr, Hg, Hb, !Z.sub_diag.
  change (Z.abs 0) with 0%Z.
  destruct (Z.ltb_spec 0 fuzz); [done|lia].
Qed.

Lemma uniform_image_cleared_by_box_witness :
  exists out, remove_background [[black; black]; [black; black]] 30 = inr out
              /\ dims out = dims [[black; black]; [black; black]]
              /\ forall y x q, lookup_px out y x = Some q -> q = cleared_white.
Proof.
  apply (uniform_image_cleared_by_box [[black; black]; [black; black]] 30 2 2 black).
  - solve_wf.
  - lia.
  - lia.
  - intros [|[|y]] [|[|x]] d; simpl; intros [= <-]; done.
  - lia.
Defined.

(** X12.  With a [fuzz] of 0 or less the routine returns its input
    unchanged: an absolute difference is never below it. *)
Theorem nonpositive_fuzz_changes_nothing (img : image) (fuzz : Z) (h w : nat) :
  wf_image h w img -> 0 < h -> 0 < w -> (fuzz <= 0)%Z ->
  remove_background img fuzz = inr img.
Proof.
  intros Hwf Hh Hw Hfuzz.
  destruct (corner_pixels_wf h w img Hwf Hh Hw) as (c1 & c2 & c3 & c4 & E & _).
  rewrite (remove_background_fmap img fuzz _ E). f_equal.
  apply map_image_id. intros p. unfold box_cell, similar.
  destruct (Z.ltb_spec (Z.abs (red p - corner_average red [c1; c2; c3; c4])) fuzz);
    [lia|done].
Qed.

Lemma nonpositive_fuzz_changes_nothing_witness :
  remove_background tinted_dot 0 = inr tinted_dot.
Proof.
  apply (nonpositive_fuzz_changes_nothing tinted_dot 0 3 3);
    [apply wf_tinted_dot | lia | lia | lia].
Defined.

(** X13.  A larger [fuzz] clears at least as much: wherever the output for
    [fuzz] holds [(255, 255, 255, 0)], so does the output for any
    [fuzz' >= fuzz]. *)
Theorem larger_fuzz_clears_more (img : image) (fuzz fuzz' : Z) (h w : nat) :
  wf_image h w img -> 0 < h -> 0 < w -> (fuzz <= fuzz')%Z ->
  exists out out',
    remove_background img fuzz = inr out
    /\ remove_background img fuzz' = inr out'
    /\ forall y x, lookup_px out y x = Some cleared_white ->
                   lookup_px out' y x = Some cleared_white.
Proof.
  intros Hwf Hh Hw Hle.
  destruct (corner_pixels_wf h w img Hwf Hh Hw) as (c1 & c2 & c3 & c4 & E & _).
  rewrite !(remove_background_fmap img _ _ E).
  do 2 eexists. split; [done|]. split; [done|].
  intros y x. rewrite !lookup_px_fmap.
  destruct (lookup_px img y x) as [d|]; simpl; [|done].
  unfold box_cell.
  destruct (similar _ _ _ fuzz d) eqn:Es.
  - by rewrite (similar_mono _ _ _ fuzz fuzz' d Hle Es).
  - intros [= ->]. by destruct (similar _ _ _ fuzz' cleared_white).
Qed.

Lemma larger_fuzz_clears_more_witness :
  exists out out',
    remove_background tinted_dot 10 = inr out
    /\ remove_background tinted_dot 30 = inr out'
    /\ forall y x, lookup_px out y x = Some cleared_white ->
                   lookup_px out' y x = Some cleared_white.
Proof.
  apply (larger_fuzz_clears_more tinted_dot 10 30 3 3);
    [apply wf_tinted_dot | lia | lia | lia].
Defined.

(** X14.  With a [fuzz] above 255 every pixel of a valid image is cleared:
    the floored corner mean is itself within 0..255, so no channel is 256
    or more away from it. *)
Theorem huge_fuzz_clears_everything (img : image) (fuzz : Z) (h w : nat) :
  wf_image h w img -> 0 < h -> 0 < w -> (255 < fuzz)%Z ->
  exists out, remove_background img fuzz = inr out
              /\ dims out = dims img
              /\ forall y x q, lookup_px out y x = Some q -> q = cleared_white.
Proof.
  intros Hwf Hh Hw Hfuzz.
  destruct (corner_pixels_wf h w img Hwf Hh Hw)
    as (c1 & c2 & c3 & c4 & E & E1 & E2 & E3 & E4).
  rewrite (remove_background_fmap img fuzz _ E).
  eexists. split; [done|]. split; [apply dims_fmap|].
  intros y x q. rewrite lookup_px_fmap.
  destruct (lookup_px img y x) as [d|] eqn:Ed; simpl; [|done]. intros [= <-].
  destruct (wf_image_lookup_range _ _ _ _ _ _ Hwf E1) as (_ & _ & ? & ? & ? & _).
  destruct (wf_image_lookup_range _ _ _ _ _ _ Hwf E2) as (_ & _ & ? & ? & ? & _).
  destruct (wf_image_lookup_range _ _ _ _ _ _ Hwf E3) as (_ & _ & ? & ? & ? & _).
  destruct (wf_image_lookup_range _ _ _ _ _ _ Hwf E4) as (_ & _ & ? & ? & ? & _).
  destruct (wf_image_lookup_range _ _ _ _ _ _ Hwf Ed) as (_ & _ & Hr & Hg & Hb & _).
  pose proof (corner_average_uint8 red c1 c2 c3 c4) as Ar.
  pose proof (corner_average_uint8 green c1 c2 c3 c4) as Ag.
  pose proof (corner_average_uint8 blue c1 c2 c3 c4) as Ab.
  unfold box_cell, similar. unfold uint8 in *.
  destruct (Z.ltb_spec (Z.abs (red d - corner_average red [c1; c2; c3; c4])) fuzz);
    [|lia].
  destruct (Z.ltb_spec (Z.abs (green d - corner_average green [c1; c2; c3; c4])) fuzz);
    [|lia].
  destruct (Z.ltb_spec (Z.abs (blue d - corner_average blue [c1; c2; c3; c4])) fuzz);
    [done|lia].
Qed.

Lemma huge_fuzz_clears_everything_witness :
  exists out, remove_background black_on_white 256 = inr out
              /\ dims out = dims black_on_white
              /\ forall y x q, lookup_px out y x = Some q -> q = cleared_white.
Proof.
  apply (huge_fuzz_clears_everything black_on_white 256 3 3); [solve_wf | lia | lia | lia].
Defined.

(** * Properties of the last loop of the OpenCV variant *)

Lemma scale_alpha_table :
  forallb (fun m => forallb (scale_alpha_facts m) uint8_range) uint8_range = true.
Proof. vm_compute. reflexivity. Qed.

Lemma uint8_in_range (c : Z) : uint8 c -> In c uint8_range.
Proof.
  intros [H0 H255]. unfold uint8_range.
  apply in_map_iff. exists (Z.to_nat c). split; [lia|]. apply in_seq. lia.
Qed.

Lemma scale_alpha_uint8 (m a : Z) :
  uint8 m -> uint8 a -> scale_alpha_facts m a = true.
Proof.
  intros Hm%uint8_in_range Ha%uint8_in_range.
  pose proof scale_alpha_table as T.
  rewrite forallb_forall in T. specialize (T m Hm).
  rewrite forallb_forall in T. exact (T a Ha).
Qed.

Lemma compose_step_pointwise (original_array : image) (smooth_mask : mask) :
  pointwise (compose_step original_array smooth_mask)
            (compose_cell original_array smooth_mask).
Proof.
  intros y x im. unfold compose_step, compose_cell. cbv zeta.
  destruct (10 <? getmask smooth_mask y x)%Z; by rewrite ?setpx_getpx.
Qed.

Lemma lookup_px_blank_like (im : image) (y x : nat) :
  lookup_px (blank_like im) y x = (fun _ => transparent) <$> lookup_px im y x.
Proof.
  unfold lookup_px, blank_like. rewrite list_lookup_fmap.
  destruct (im !! y); simpl; [|done]. by rewrite list_lookup_fmap.
Qed.

Lemma compose_final_lookup (original_array : image) (smooth_mask : mask)
    (h w y x : nat) (d : pixel) :
  lookup_px original_array y x = Some d -> y < h -> x < w ->
  lookup_px (compose_final original_array smooth_mask w h) y x
  = Some (compose_cell original_array smooth_mask y x transparent).
Proof.
  intros Ed Hy%Nat.ltb_lt Hx%Nat.ltb_lt. unfold compose_final.
  rewrite (pointwise_nested _ _ (compose_step_pointwise original_array smooth_mask)).
  by rewrite Hy, Hx, lookup_px_blank_like, Ed.
Qed.

(** X15.  Where the mask is above 10, the output pixel has the RGB of the
    input pixel, untouched, and an alpha that is never above the input alpha:
    it is the input alpha scaled by mask/255 in double precision, which is
    the floor of the exact quotient or one less. *)
Theorem compositing_keeps_rgb (original_array : image) (smooth_mask : mask)
    (h w y x : nat) (d : pixel) :
  wf_image h w original_array ->
  lookup_px original_array y x = Some d ->
  uint8 (getmask smooth_mask y x) -> (10 < getmask smooth_mask y x)%Z ->
  exists q,
    lookup_px (compose_final original_array smooth_mask w h) y x = Some q
    /\ same_rgb q d
    /\ (0 <= alpha q <= alpha d)%Z
    /\ (getmask smooth_mask y x * alpha d / 255 - 1 <= alpha q
        <= getmask smooth_mask y x * alpha d / 255)%Z.
Proof.
  intros Hwf Ed Hm Hbig.
  destruct (wf_image_lookup_range _ _ _ _ _ _ Hwf Ed) as (Hy & Hx & _ & _ & _ & Ha).
  rewrite (compose_final_lookup _ _ h w y x d Ed Hy Hx).
  eexists. split; [done|].
  unfold compose_cell. rewrite (getpx_lookup _ _ _ _ Ed).
  apply Z.ltb_lt in Hbig. rewrite Hbig. cbv zeta.
  pose proof (scale_alpha_uint8 _ _ Hm Ha) as T. unfold scale_alpha_facts in T.
  rewrite !andb_true_iff, !Z.leb_le in T.
  destruct T as ((((T0 & T1) & T2) & T3) & _).
  unfold same_rgb. cbn [red green blue alpha]. repeat split; lia.
Qed.

Lemma compositing_keeps_rgb_witness :
  exists q,
    lookup_px (compose_final [[Pixel 10 20 30 85]] [[147%Z]] 1 1) 0 0 = Some q
    /\ same_rgb q (Pixel 10 20 30 85)
    /\ (0 <= alpha q <= 85)%Z
    /\ (147 * 85 / 255 - 1 <= alpha q <= 147 * 85 / 255)%Z.
Proof.
  apply (compositing_keeps_rgb [[Pixel 10 20 30 85]] [[147%Z]] 1 1 0 0 (Pixel 10 20 30 85)).
  - solve_wf.
  - reflexivity.
  - change (getmask [[147%Z]] 0 0) with 147%Z. unfold uint8. lia.
  - change (getmask [[147%Z]] 0 0) with 147%Z. lia.
Defined.

(** The double-precision product does fall short of the exact quotient:
    147 * 85 / 255 is 49, and the loop stores 48. *)
Example scale_alpha_rounds_down : scale_alpha 147 85 = 48%Z.
Proof. vm_compute. reflexivity. Qed.

(** X16.  Where the mask is 255 the output pixel is the input pixel, alpha
    included; where the mask is at most 10 it is [(0, 0, 0, 0)]. *)
Theorem compositing_at_mask_extremes (original_array : image) (smooth_mask : mask)
    (h w y x : nat) (d : pixel) :
  wf_image h w original_array ->
  lookup_px original_array y x = Some d ->
  (getmask smooth_mask y x = 255%Z ->
     lookup_px (compose_final original_array smooth_mask w h) y x = Some d)
  /\ ((getmask smooth_mask y x <= 10)%Z ->
     lookup_px (compose_final original_array smooth_mask w h) y x = Some transparent).
Proof.
  intros Hwf Ed.
  destruct (wf_image_lookup_range _ _ _ _ _ _ Hwf Ed) as (Hy & Hx & _ & _ & _ & Ha).
  rewrite (compose_final_lookup _ _ h w y x d Ed Hy Hx).
  unfold compose_cell. rewrite (getpx_lookup _ _ _ _ Ed). split.
  - intros ->. change (10 <? 255)%Z with true. cbv iota zeta.
    pose proof (scale_alpha_uint8 255 (alpha d) ltac:(unfold uint8; lia) Ha) as T.
    unfold scale_alpha_facts in T. rewrite !andb_true_iff in T.
    destruct T as (_ & T). change (255 =? 255)%Z with true in T. cbv iota in T.
    apply Z.eqb_eq in T. rewrite T. by destruct d.
  - intros Hlow. by destruct (Z.ltb_spec 10 (getmask smooth_mask y x)); [lia|].
Qed.

Lemma compositing_at_mask_extremes_witness :
  lookup_px (compose_final [[dark_red; white]] [[255%Z; 10%Z]] 2 1) 0 0 = Some dark_red
  /\ lookup_px (compose_final [[dark_red; white]] [[255%Z; 10%Z]] 2 1) 0 1
     = Some transparent.
Proof.
  split.
  - apply (proj1 (compositing_at_mask_extremes [[dark_red; white]] [[255%Z; 10%Z]]
                    1 2 0 0 dark_red ltac:(solve_wf) eq_refl)).
    reflexivity.
  - apply (proj2 (compositing_at_mask_extremes [[dark_red; white]] [[255%Z; 10%Z]]
                    1 2 0 1 white ltac:(solve_wf) eq_refl)).
    change (getmask [[255%Z; 10%Z]] 0 1) with 10%Z. lia.
Defined.
